(** * spotify-playlist-sync: the discovery and reconciliation pipeline

    A shallow embedding of [internal/sps/main.go].  Go strings are byte
    strings ([string]); Go's [map[string]bool] is a [gmap string bool] read
    with the zero value [false] for absent keys; the HTTP services are an
    abstract state machine; [log.Fatal] and run-time panics stop the
    program. *)

From stdpp Require Import gmap strings list.
From Stdlib Require Import Ascii DecimalString Sorted.

Local Open Scope Z_scope.

(** ** The [strings] package *)

Module GoStrings.

(** [strings.HasPrefix(s, prefix)]. *)
Fixpoint HasPrefix (s prefix : string) : bool :=
  match prefix with
  | EmptyString => true
  | String p prefix' =>
      match s with
      | EmptyString => false
      | String c s' => Ascii.eqb c p && HasPrefix s' prefix'
      end
  end.

(** [strings.HasSuffix(s, suffix)]:
    [len(s) >= len(suffix) && s[len(s)-len(suffix):] == suffix]. *)
Definition HasSuffix (s suffix : string) : bool :=
  (String.length suffix <=? String.length s)%nat
  && String.eqb
       (String.substring (String.length s - String.length suffix)
                         (String.length suffix) s)
       suffix.

(** [strings.Contains(s, substr)]: [substr] occurs at some offset of [s]. *)
Fixpoint Contains (s substr : string) : bool :=
  HasPrefix s substr
  || match s with
     | EmptyString => false
     | String _ s' => Contains s' substr
     end.

(** The scan of [strings.Split] for a non-empty separator: [cur] is the
    field read so far, [skip] the number of separator bytes still to be
    passed over. *)
Fixpoint splitFrom (sep : string) (skip : nat) (cur s : string) : list string :=
  match s with
  | EmptyString => [cur]
  | String c s' =>
      match skip with
      | S k => splitFrom sep k cur s'
      | O =>
          if HasPrefix s sep
          then cur :: splitFrom sep (String.length sep - 1) EmptyString s'
          else splitFrom sep 0 (cur +:+ String c EmptyString) s'
      end
  end.

(** [strings.Split(s, sep)].  With an empty separator Go explodes [s] into
    its UTF-8 sequences; that branch is given here for byte strings only
    and is not reached by the program, whose separators are the constants
    [","] and [" - "]. *)
Definition Split (s sep : string) : list string :=
  match sep with
  | EmptyString => (fun c => String c EmptyString) <$> String.list_ascii_of_string s
  | _ => splitFrom sep 0 EmptyString s
  end.

End GoStrings.

(** ** The pattern [\s\(\d+\)] of package [regexp] *)

Module Rx.

(** RE2's [\s] is the ASCII class [[\t\n\f\r ]]. *)
Definition isSpace (c : ascii) : bool :=
  let n := nat_of_ascii c in
  ((n =? 9) || (n =? 10) || (n =? 12) || (n =? 13) || (n =? 32))%nat.

(** RE2's [\d] is [[0-9]]. *)
Definition isDigit (c : ascii) : bool :=
  let n := nat_of_ascii c in ((48 <=? n) && (n <=? 57))%nat.

(** Length of the longest run of digits at the start of [s]. *)
Fixpoint digitRun (s : string) : nat :=
  match s with
  | String c s' => if isDigit c then S (digitRun s') else O
  | EmptyString => O
  end.

(** Length of the match of [\s\(\d+\)] anchored at the start of [s]. *)
Definition matchLen (s : string) : option nat :=
  match s with
  | String c0 (String c1 rest) =>
      if isSpace c0 && Ascii.eqb c1 "("%char then
        let n := digitRun rest in
        match String.get n rest with
        | Some c => if (0 <? n)%nat && Ascii.eqb c ")"%char
                    then Some (n + 3)%nat else None
        | None => None
        end
      else None
  | _ => None
  end.

(** [rx.MatchString(s)]: the pattern occurs somewhere in [s]. *)
Fixpoint MatchString (s : string) : bool :=
  match s with
  | EmptyString => false
  | String _ s' => bool_decide (is_Some (matchLen s)) || MatchString s'
  end.

(** Left-to-right replacement of the non-overlapping matches; [skip] counts
    the bytes of the current match still to be dropped. *)
Fixpoint replaceFrom (repl : string) (skip : nat) (src : string) : string :=
  match src with
  | EmptyString => EmptyString
  | String c src' =>
      match skip with
      | S k => replaceFrom repl k src'
      | O =>
          match matchLen src with
          | Some n => repl +:+ replaceFrom repl (n - 1) src'
          | None => String c (replaceFrom repl 0 src')
          end
      end
  end.

(** [rx.ReplaceAllString(src, repl)] for a replacement without [$]. *)
Definition ReplaceAllString (src repl : string) : string :=
  replaceFrom repl 0 src.

End Rx.

Import GoStrings.

(** The title normalisation of [searchDiscogsForAlbums]: every match of
    the pattern is replaced by the empty string. *)
Definition normalizeTitle (title : string) : string :=
  Rx.ReplaceAllString title EmptyString.

(** ** Data model *)

(** Go's [error] values carry a message. *)
Definition error := string.

Module Album.
Record t := { Title : string }.
End Album.

(** [SpotifyAlbumResponse]: [Tracks] is the list of [Tracks.Items[i].URI]. *)
Module SpotifyAlbumResponse.
Record t := { Tracks : list string }.
End SpotifyAlbumResponse.

(** One element of [SpotifySearchResponse.Albums.Items]; [Artists] is the
    list of [Artists[i].Name]. *)
Module SearchAlbum.
Record t := {
  AlbumType : string;
  Artists : list string;
  Name : string;
  ReleaseDate : string;
  Href : string
}.
End SearchAlbum.

(** [SpotifySearchResponse]: [Items] is [Albums.Items]. *)
Module SpotifySearchResponse.
Record t := { Items : list SearchAlbum.t }.
End SpotifySearchResponse.

(** [DiscogsSearchResult]; [Have] is [Community.Have]. *)
Module DiscogsSearchResult.
Record t := {
  Title : string;
  Have : Z;
  Format : list string;
  Year : string;
  Style : list string;
  Thumb : string;
  Uri : string;
  Artist : list string;
  MasterURL : string
}.
End DiscogsSearchResult.

(** [DiscogsSearchResponse]; [Next] is [Pagination.Urls.Next]. *)
Module DiscogsSearchResponse.
Record t := { Results : list DiscogsSearchResult.t; Next : string }.
End DiscogsSearchResponse.

Module DiscogsMasterResponse.
Record t := { Year : Z }.
End DiscogsMasterResponse.

(** [SpotifyPlaylistSync], without the bearer token. *)
Module SpotifyPlaylistSync.
Record t := { excludedStyles : list string; verbose : bool }.
End SpotifyPlaylistSync.

(** ** Effects *)

(** The requests the pipeline sends. *)
Inductive Request :=
| SearchAlbums (q : string)
| GetAlbum (href : string)
| PostPlaylistTracks (playlistUrl : string) (uris : list string)
| DiscogsSearch (searchUrl : string)
| DiscogsMaster (masterURLWithToken : string).

(** What a request comes back with, once [doRequest] and [json.Unmarshal]
    are through: no response at all, an error value (unexpected status or
    an undecodable body), or the decoded payload. *)
Inductive Reply (A : Type) :=
| TransportError (e : error)
| Failure (e : error)
| Success (a : A).
Arguments TransportError {A} e.
Arguments Failure {A} e.
Arguments Success {A} a.

(** The lines written to standard output; [Skipping*] are the verbose ones. *)
Inductive Msg :=
| NoAlbumsFound (title : string)
| NoMatch (title : string)
| Adding (artistName albumName : string)
| NoNewTracks (artistName albumName : string)
| Added (n : nat) (artistName albumName : string)
| Retrying (title : string)
| Fetching (searchUrl : string)
| SkippingReleaseDate (name releaseDate : string)
| SkippingStyle1 (artist title style : string)
| SkippingStyle (title style : string)
| SkippingExcluded (title exc : string)
| SkippingFewCopies (title : string)
| SkippingReissue (title : string)
| SkippingMasterYear (title masterYear year : string).

(** Observable events, in the order they happen. [EvSend] is a send on the
    [albumsToAdd] channel. *)
Inductive Event :=
| EvRequest (rq : Request)
| EvSleep (seconds : nat)
| EvPrint (m : Msg)
| EvSend (a : Album.t).

(** Why a computation stopped for good. *)
Inductive Halt :=
| LogFatal (e : error)
| IndexOutOfRange
| OutOfFuel.

Inductive Result (A : Type) :=
| Done (a : A)
| Halted (h : Halt).
Arguments Done {A} a.
Arguments Halted {A} h.

(** The environment of a run: the remote services as a state machine over
    [World], and the library functions the program calls that are not part
    of the repository. *)
Class Env := {
  World : Type;
  serveSearch : string -> World -> Reply SpotifySearchResponse.t * World;
  serveAlbum : string -> World -> Reply SpotifyAlbumResponse.t * World;
  servePlaylistPost : string -> list string -> World -> Reply unit * World;
  serveDiscogsSearch : string -> World -> Reply DiscogsSearchResponse.t * World;
  serveDiscogsMaster : string -> World -> Reply DiscogsMasterResponse.t * World;
  (** the error of [http.NewRequest] on a URL that does not parse *)
  urlParseError : string -> option error;
  (** [strutil.Similarity(str1, str2, metrics.NewLevenshtein()) > 0.8] *)
  areStringsSimilar : string -> string -> bool;
  (** [sort.Slice] on the search items, with its [less] function *)
  sortSlice : list SearchAlbum.t -> (SearchAlbum.t -> SearchAlbum.t -> bool)
              -> list SearchAlbum.t;
  (** the package variable [discogsToken] *)
  discogsToken : string
}.

Record State {env : Env} := { world : World; trace : list Event }.

Definition M {env : Env} (A : Type) : Type := State -> Result A * State.

Definition ret {env : Env} {A} (a : A) : M A := fun st => (Done a, st).

Definition bind {env : Env} {A B} (m : M A) (k : A -> M B) : M B :=
  fun st =>
    match m st with
    | (Done a, st') => k a st'
    | (Halted h, st') => (Halted h, st')
    end.

Notation "x <- m ;; k" := (bind m (fun x => k))
  (at level 100, m at next level, right associativity).
Notation "m ;; k" := (bind m (fun _ => k))
  (at level 100, right associativity).

Definition halt {env : Env} {A} (h : Halt) : M A := fun st => (Halted h, st).

Definition emit {env : Env} (e : Event) : M unit :=
  fun st => (Done tt, {| world := world st; trace := trace st ++ [e] |}).

(** [fmt.Printf] / [fmt.Println]. *)
Definition print {env : Env} (m : Msg) : M unit := emit (EvPrint m).

(** [time.Sleep(seconds * time.Second)]. *)
Definition sleep {env : Env} (seconds : nat) : M unit := emit (EvSleep seconds).

(** [l[i]], panicking out of range. *)
Definition index {env : Env} {A} (l : list A) (i : nat) : M A :=
  match l !! i with
  | Some x => ret x
  | None => halt IndexOutOfRange
  end.

(** [doRequest] followed by the decoding of the body: the request is sent
    and answered by the service; a transport error is [log.Fatal]. *)
Definition doRequest {env : Env} {A} (rq : Request)
    (serve : World -> Reply A * World) : M (A + error) :=
  fun st =>
    let '(r, w) := serve (world st) in
    let st' := {| world := w; trace := trace st ++ [EvRequest rq] |} in
    match r with
    | TransportError e => (Halted (LogFatal e), st')
    | Failure e => (Done (inr e), st')
    | Success a => (Done (inl a), st')
    end.

(** ** The program *)

Section Program.
Context {env : Env}.
Variable s : SpotifyPlaylistSync.t.

(** [s.v(f, args...)]: print only in verbose mode. *)
Definition v (m : Msg) : M unit :=
  if SpotifyPlaylistSync.verbose s then print m else ret tt.

(** The loop at the end of [getLatestAlbumFromBand]: the name of the first
    album whose first artist is similar to [artist]. *)
Fixpoint firstAlbumOf (artist : string) (items : list SearchAlbum.t)
    : M (option string) :=
  match items with
  | [] => ret None
  | album :: rest =>
      a0 <- index (SearchAlbum.Artists album) 0 ;;
      if areStringsSimilar a0 artist
      then ret (Some (SearchAlbum.Name album))
      else firstAlbumOf artist rest
  end.

(** The [less] function given to [sort.Slice]:
    [Items[i].ReleaseDate > Items[j].ReleaseDate]. *)
Definition laterRelease (a b : SearchAlbum.t) : bool :=
  String.ltb (SearchAlbum.ReleaseDate b) (SearchAlbum.ReleaseDate a).

(** [getLatestAlbumFromBand(artist)]; every failure is [log.Fatal].  The
    length test comes after the sort, as in the source. *)
Definition getLatestAlbumFromBand (artist : string) : M string :=
  r <- doRequest (SearchAlbums ("artist:" +:+ artist))
                 (serveSearch ("artist:" +:+ artist)) ;;
  match r with
  | inr e => halt (LogFatal e)
  | inl searchResponse =>
      let items := sortSlice (SpotifySearchResponse.Items searchResponse)
                             laterRelease in
      match items with
      | [] => ret EmptyString
      | first :: _ =>
          found <- firstAlbumOf artist items ;;
          match found with
          | Some name => ret name
          | None => ret (SearchAlbum.Name first)
          end
      end
  end.

(** [currentTracks[uri]] on a [map[string]bool]. *)
Definition mapGet (m : gmap string bool) (k : string) : bool :=
  default false (m !! k).

(** The search loop of [addAlbumToSpotifyPlaylist]: the [Href] of the first
    item that passes the year test and both similarity tests, or the empty
    string.  [Artists[0]] is read before the similarity tests. *)
Fixpoint findAlbumUrl (year artistName albumName : string)
    (items : list SearchAlbum.t) : M string :=
  match items with
  | [] => ret EmptyString
  | searchAlbum :: rest =>
      if negb (String.eqb year EmptyString)
         && negb (HasPrefix (SearchAlbum.ReleaseDate searchAlbum) year)
      then
        v (SkippingReleaseDate (SearchAlbum.Name searchAlbum)
                               (SearchAlbum.ReleaseDate searchAlbum)) ;;
        findAlbumUrl year artistName albumName rest
      else
        a0 <- index (SearchAlbum.Artists searchAlbum) 0 ;;
        if areStringsSimilar a0 artistName
           && areStringsSimilar (SearchAlbum.Name searchAlbum) albumName
        then ret (SearchAlbum.Href searchAlbum)
        else findAlbumUrl year artistName albumName rest
  end.

(** The track loop: the URIs not marked in [currentTracks], in order. *)
Definition newTrackUris (currentTracks : gmap string bool)
    (tracks : list string) : list string :=
  filter (fun uri => mapGet currentTracks uri = false) tracks.

Definition playlistTracksUrl (playlistID : string) : string :=
  "https://api.spotify.com/v1/playlists/" +:+ playlistID +:+ "/tracks".

(** [addAlbumToSpotifyPlaylist(album, playlistID, year, currentTracks)];
    the result is the returned [error], [None] for [nil].  The search URL
    is built with [url.Values.Encode] and always parses; the album URL and
    the playlist URL are taken as they come.  [currentTracks] is read and
    never written. *)
Definition addAlbumToSpotifyPlaylist (album : Album.t)
    (playlistID year : string) (currentTracks : gmap string bool)
    : M (option error) :=
  r <- doRequest (SearchAlbums (Album.Title album))
                 (serveSearch (Album.Title album)) ;;
  match r with
  | inr e => ret (Some e)
  | inl searchResponse =>
      match SpotifySearchResponse.Items searchResponse with
      | [] => print (NoAlbumsFound (Album.Title album)) ;; ret None
      | items =>
          let albumParts := Split (Album.Title album) " - " in
          artistName <- index albumParts 0 ;;
          albumName <- index albumParts 1 ;;
          albumUrl <- findAlbumUrl year artistName albumName items ;;
          if String.eqb albumUrl EmptyString
          then print (NoMatch (Album.Title album)) ;; ret None
          else
            print (Adding artistName albumName) ;;
            match urlParseError albumUrl with
            | Some e => ret (Some e)
            | None =>
                r <- doRequest (GetAlbum albumUrl) (serveAlbum albumUrl) ;;
                match r with
                | inr e => ret (Some e)
                | inl albumResponse =>
                    let playlistUrl := playlistTracksUrl playlistID in
                    let trackUris :=
                      newTrackUris currentTracks
                        (SpotifyAlbumResponse.Tracks albumResponse) in
                    match trackUris with
                    | [] => print (NoNewTracks artistName albumName) ;;
                            ret None
                    | _ =>
                        match urlParseError playlistUrl with
                        | Some e => ret (Some e)
                        | None =>
                            r <- doRequest
                                   (PostPlaylistTracks playlistUrl trackUris)
                                   (servePlaylistPost playlistUrl trackUris) ;;
                            match r with
                            | inr e => ret (Some e)
                            | inl _ =>
                                print (Added (length trackUris)
                                             artistName albumName) ;;
                                ret None
                            end
                        end
                    end
                end
            end
      end
  end.

(** The map [tracksAlreadySeen] built from the playlist snapshot. *)
Definition tracksAlreadySeen (currentTracks : list string) : gmap string bool :=
  foldl (fun m track => <[track := true]> m) ∅ currentTracks.

(** The retry loop [for i := 0; i < 3; i++] of the consumer goroutine, with
    [n] iterations left. *)
Fixpoint retryAlbum (n : nat) (album : Album.t) (playlistID year : string)
    (seen : gmap string bool) : M unit :=
  match n with
  | O => ret tt
  | S n' =>
      err <- addAlbumToSpotifyPlaylist album playlistID year seen ;;
      match err with
      | None => ret tt
      | Some _ =>
          print (Retrying (Album.Title album)) ;;
          sleep 30 ;;
          retryAlbum n' album playlistID year seen
      end
  end.

(** The consumer goroutine of [syncSpotifyPlaylist] on the albums it
    receives from the channel, in order. *)
Fixpoint consumeAlbums (albums : list Album.t) (playlistID year : string)
    (seen : gmap string bool) : M unit :=
  match albums with
  | [] => ret tt
  | album :: rest =>
      retryAlbum 3 album playlistID year seen ;;
      consumeAlbums rest playlistID year seen
  end.

(** How one iteration of the [RESULTS] loop ends: it goes on to the next
    result ([continue], or the end of the body), leaves the loop
    ([break RESULTS]), or returns from the function with an error. *)
Inductive Step :=
| NextResult
| BreakResults
| ReturnErr (err : error).

(** [strconv.Itoa]. *)
Definition Itoa (n : Z) : string := NilZero.string_of_int (Z.to_int n).

(** [getMasterReleaseYear(masterURL)]. *)
Definition getMasterReleaseYear (masterURL : string)
    : M (string * option error) :=
  let masterURLWithToken := masterURL +:+ "?token=" +:+ discogsToken in
  match urlParseError masterURLWithToken with
  | Some e => ret (EmptyString, Some e)
  | None =>
      r <- doRequest (DiscogsMaster masterURLWithToken)
                     (serveDiscogsMaster masterURLWithToken) ;;
      sleep 1 ;;
      match r with
      | inr e => ret (EmptyString, Some e)
      | inl masterResponse =>
          ret (Itoa (DiscogsMasterResponse.Year masterResponse), None)
      end
  end.

(** [isReissueOrRemaster(format)]. *)
Definition isReissueOrRemaster (format : list string) : bool :=
  existsb (fun f => String.eqb f "Reissue" || String.eqb f "Remastered") format.

(** The two nested loops over [result.Style] and [s.excludedStyles]: the
    excluded style of the first hit. *)
Fixpoint findExcluded (styles excluded : list string) : option string :=
  match styles with
  | [] => None
  | style :: rest =>
      match List.find (fun exc => Contains style exc) excluded with
      | Some exc => Some exc
      | None => findExcluded rest excluded
      end
  end.

(** [result.Style[i]], read only under a guard on [len(result.Style)]. *)
Definition styleAt (styles : list string) (i : nat) : string :=
  default EmptyString (styles !! i).

(** The first test of the loop body, on [result.Style]:
    [len(result.Style) == 1 && !strings.HasSuffix(result.Style[0], style)]. *)
Definition missesOnlyStyle (style : string) (styles : list string) : bool :=
  (length styles =? 1)%nat && negb (HasSuffix (styleAt styles 0) style).

(** The second test: [len(result.Style) > 1 &&
    (!HasSuffix(result.Style[0], style) && !HasSuffix(result.Style[1], style))]. *)
Definition missesFirstTwoStyles (style : string) (styles : list string) : bool :=
  (1 <? length styles)%nat
  && (negb (HasSuffix (styleAt styles 0) style)
      && negb (HasSuffix (styleAt styles 1) style)).

(** A release gets past the two style tests. *)
Definition passesStyle (style : string) (styles : list string) : bool :=
  negb (missesOnlyStyle style styles) && negb (missesFirstTwoStyles style styles).

(** The end of the loop body: the title is normalised and sent on the
    channel unless it was seen before. *)
Definition forwardAlbum (result : DiscogsSearchResult.t)
    (albumsSeen : gmap string bool) : M (Step * gmap string bool) :=
  let title := normalizeTitle (DiscogsSearchResult.Title result) in
  if negb (mapGet albumsSeen title)
  then emit (EvSend {| Album.Title := title |}) ;;
       ret (NextResult, <[title := true]> albumsSeen)
  else ret (NextResult, albumsSeen).

(** The body of the [RESULTS] loop of [searchDiscogsForAlbums]. *)
Definition handleResult (style year : string) (result : DiscogsSearchResult.t)
    (albumsSeen : gmap string bool) : M (Step * gmap string bool) :=
  let title := DiscogsSearchResult.Title result in
  if missesOnlyStyle style (DiscogsSearchResult.Style result) then
    a0 <- index (DiscogsSearchResult.Artist result) 0 ;;
    v (SkippingStyle1 a0 title style) ;;
    ret (NextResult, albumsSeen)
  else if missesFirstTwoStyles style (DiscogsSearchResult.Style result) then
    v (SkippingStyle title style) ;;
    ret (NextResult, albumsSeen)
  else
    match findExcluded (DiscogsSearchResult.Style result)
                       (SpotifyPlaylistSync.excludedStyles s) with
    | Some exc =>
        v (SkippingExcluded title exc) ;;
        ret (BreakResults, albumsSeen)
    | None =>
        if (DiscogsSearchResult.Have result <? 10)%Z then
          v (SkippingFewCopies title) ;;
          ret (NextResult, albumsSeen)
        else if isReissueOrRemaster (DiscogsSearchResult.Format result) then
          v (SkippingReissue title) ;;
          ret (NextResult, albumsSeen)
        else if negb (String.eqb (DiscogsSearchResult.MasterURL result)
                                 EmptyString) then
          my <- getMasterReleaseYear (DiscogsSearchResult.MasterURL result) ;;
          match my with
          | (_, Some err) => ret (ReturnErr err, albumsSeen)
          | (masterYear, None) =>
              if negb (String.eqb masterYear year) then
                v (SkippingMasterYear title masterYear year) ;;
                ret (NextResult, albumsSeen)
              else forwardAlbum result albumsSeen
          end
        else forwardAlbum result albumsSeen
    end.

(** The [RESULTS] loop over one page; the result is the error the function
    returns from inside the loop, if any, and the seen-title map. *)
Fixpoint rangeResults (style year : string)
    (results : list DiscogsSearchResult.t) (albumsSeen : gmap string bool)
    : M (option error * gmap string bool) :=
  match results with
  | [] => ret (None, albumsSeen)
  | result :: rest =>
      r <- handleResult style year result albumsSeen ;;
      match r with
      | (NextResult, albumsSeen') => rangeResults style year rest albumsSeen'
      | (BreakResults, albumsSeen') => ret (None, albumsSeen')
      | (ReturnErr err, albumsSeen') => ret (Some err, albumsSeen')
      end
  end.

(** The page loop [for { ... }] of [searchDiscogsForAlbums], run for at most
    [fuel] pages. *)
Fixpoint searchPages (fuel : nat) (style year searchUrl : string)
    (albumsSeen : gmap string bool) : M (option error) :=
  match fuel with
  | O => halt OutOfFuel
  | S fuel' =>
      print (Fetching searchUrl) ;;
      match urlParseError searchUrl with
      | Some e => ret (Some e)
      | None =>
          r <- doRequest (DiscogsSearch searchUrl)
                         (serveDiscogsSearch searchUrl) ;;
          sleep 1 ;;
          match r with
          | inr e => ret (Some e)
          | inl discogsResponse =>
              rr <- rangeResults style year
                      (DiscogsSearchResponse.Results discogsResponse)
                      albumsSeen ;;
              match rr with
              | (Some err, _) => ret (Some err)
              | (None, albumsSeen') =>
                  let next := DiscogsSearchResponse.Next discogsResponse in
                  if String.eqb next EmptyString then ret None
                  else searchPages fuel' style year next albumsSeen'
              end
          end
      end
  end.

Definition discogsSearchURL : string := "https://api.discogs.com/database/search".

(** [searchDiscogsForAlbums(albumsToAdd, style, year)]; the sends on
    [albumsToAdd] are the [EvSend] events of the trace. *)
Definition searchDiscogsForAlbums (fuel : nat) (style year : string)
    : M (option error) :=
  let searchUrl :=
    discogsSearchURL +:+ "?type=release&style=" +:+ style
      +:+ "&format=Album&year=" +:+ year
      +:+ "&token=" +:+ discogsToken +:+ "&per_page=100" in
  searchPages fuel style year searchUrl ∅.

End Program.

(** The receiver built by [Run] from the [-E] flag:
    [s.excludedStyles] is [strings.Split] of the flag's value on [","];
    [verbose] is never set. *)
Definition newSync (excludeStyles : string) : SpotifyPlaylistSync.t :=
  {| SpotifyPlaylistSync.excludedStyles := Split excludeStyles ",";
     SpotifyPlaylistSync.verbose := false |}.

(** Projections of a trace. *)
Definition sentTitles (t : list Event) : list string :=
  omap (fun e => match e with EvSend a => Some (Album.Title a) | _ => None end) t.

Definition postedUris (t : list Event) : list (list string) :=
  omap (fun e => match e with
                 | EvRequest (PostPlaylistTracks _ uris) => Some uris
                 | _ => None
                 end) t.

Definition requestsOf (t : list Event) : list Request :=
  omap (fun e => match e with EvRequest rq => Some rq | _ => None end) t.

(** The searches and the sleeps of a trace: what the retry loop shows of
    itself. *)
Definition isRetryStep (e : Event) : bool :=
  match e with
  | EvRequest (SearchAlbums _) | EvSleep _ => true
  | _ => false
  end.

Definition retryView (t : list Event) : list Event :=
  filter (fun e => isRetryStep e = true) t.

(** The searches and sleeps of [k] failed attempts. *)
Definition failedAttempts (album : Album.t) (k : nat) : list Event :=
  concat (replicate k [EvRequest (SearchAlbums (Album.Title album)); EvSleep 30]).

Definition isPrint (e : Event) : Prop := exists m, e = EvPrint m.

(** The test the resolver applies to a search result that has an artist:
    the year test, then the two similarity tests. *)
Definition matchesCandidate {env : Env} (year artistName albumName : string)
    (searchAlbum : SearchAlbum.t) : bool :=
  (String.eqb year EmptyString
   || HasPrefix (SearchAlbum.ReleaseDate searchAlbum) year)
  && areStringsSimilar (default EmptyString (SearchAlbum.Artists searchAlbum !! 0%nat))
                       artistName
  && areStringsSimilar (SearchAlbum.Name searchAlbum) albumName.

(** The state after the two steps that follow a failed attempt:
    the [retrying] line and the sleep of 30 seconds. *)
Definition backoff {env : Env} (album : Album.t) (st : State) : State :=
  {| world := world st;
     trace := trace st ++ [EvPrint (Retrying (Album.Title album)); EvSleep 30] |}.

(** The first artist of a search result is similar to [artist]. *)
Definition byArtist {env : Env} (artist : string) (album : SearchAlbum.t) : bool :=
  areStringsSimilar (default EmptyString (SearchAlbum.Artists album !! 0%nat))
                    artist.

(** ** Assertions on computations *)

(** [post m Q]: whatever the state, [m] only appends events to the trace,
    and its result and the appended events satisfy [Q]. *)
Definition post {env : Env} {A} (m : M A)
    (Q : Result A -> list Event -> Prop) : Prop :=
  forall st, exists delta,
    trace (m st).2 = trace st ++ delta /\ Q (m st).1 delta.

(** [always P m]: every event [m] appends satisfies [P]. *)
Definition always {env : Env} {A} (P : Event -> Prop) (m : M A) : Prop :=
  post m (fun _ d => Forall P d).

(** An append request carries no URI marked in [seen]. *)
Definition postsOnlyNew (seen : gmap string bool) (e : Event) : Prop :=
  match e with
  | EvRequest (PostPlaylistTracks _ uris) =>
      Forall (fun uri => mapGet seen uri = false) uris
  | _ => True
  end.

(** Steps that send nothing on the channel. *)
Definition silent {env : Env} {A} (m : M A) : Prop :=
  post m (fun _ d => sentTitles d = []).

(** The sends of [d] are pairwise distinct titles, none marked in [seen]. *)
Definition fresh (seen : gmap string bool) (d : list Event) : Prop :=
  NoDup (sentTitles d) /\ forall t, t ∈ sentTitles d -> mapGet seen t = false.

(** [seen'] keeps the marks of [seen] and marks the titles sent in [d]. *)
Definition marks (seen seen' : gmap string bool) (d : list Event) : Prop :=
  (forall t, mapGet seen t = true -> mapGet seen' t = true)
  /\ (forall t, t ∈ sentTitles d -> mapGet seen' t = true).

Definition dedup {X} (seen : gmap string bool)
    (r : Result (X * gmap string bool)) (d : list Event) : Prop :=
  fresh seen d /\ match r with
                  | Done (_, seen') => marks seen seen' d
                  | Halted _ => True
                  end.

(** ** A scripted environment

    The services answer from queues of prepared replies, whatever the
    request; an exhausted queue is a transport error.  Similarity is
    equality, every URL parses, and [sort.Slice] is an insertion sort. *)

Record Script := {
  searchReplies : list (Reply SpotifySearchResponse.t);
  albumReplies : list (Reply SpotifyAlbumResponse.t);
  postReplies : list (Reply unit);
  discogsReplies : list (Reply DiscogsSearchResponse.t);
  masterReplies : list (Reply DiscogsMasterResponse.t)
}.

Definition pop {A} (q : list (Reply A)) : Reply A * list (Reply A) :=
  match q with
  | [] => (TransportError "no reply", [])
  | r :: q' => (r, q')
  end.

Fixpoint insertBy {A} (less : A -> A -> bool) (x : A) (l : list A) : list A :=
  match l with
  | [] => [x]
  | y :: l' => if less y x then y :: insertBy less x l' else x :: l
  end.

Definition sortBy {A} (l : list A) (less : A -> A -> bool) : list A :=
  foldr (insertBy less) [] l.

Definition scripted : Env := {|
  World := Script;
  serveSearch := fun _ w =>
    (fst (pop (searchReplies w)),
     {| searchReplies := snd (pop (searchReplies w));
        albumReplies := albumReplies w; postReplies := postReplies w;
        discogsReplies := discogsReplies w; masterReplies := masterReplies w |});
  serveAlbum := fun _ w =>
    (fst (pop (albumReplies w)),
     {| searchReplies := searchReplies w;
        albumReplies := snd (pop (albumReplies w)); postReplies := postReplies w;
        discogsReplies := discogsReplies w; masterReplies := masterReplies w |});
  servePlaylistPost := fun _ _ w =>
    (fst (pop (postReplies w)),
     {| searchReplies := searchReplies w;
        albumReplies := albumReplies w; postReplies := snd (pop (postReplies w));
        discogsReplies := discogsReplies w; masterReplies := masterReplies w |});
  serveDiscogsSearch := fun _ w =>
    (fst (pop (discogsReplies w)),
     {| searchReplies := searchReplies w;
        albumReplies := albumReplies w; postReplies := postReplies w;
        discogsReplies := snd (pop (discogsReplies w));
        masterReplies := masterReplies w |});
  serveDiscogsMaster := fun _ w =>
    (fst (pop (masterReplies w)),
     {| searchReplies := searchReplies w;
        albumReplies := albumReplies w; postReplies := postReplies w;
        discogsReplies := discogsReplies w;
        masterReplies := snd (pop (masterReplies w)) |});
  urlParseError := fun _ => None;
  areStringsSimilar := String.eqb;
  sortSlice := sortBy;
  discogsToken := "token"
|}.

(** The start of a scripted run. *)
Definition start (w : Script) : State (env := scripted) :=
  @Build_State scripted w [].

Definition emptyScript : Script :=
  {| searchReplies := []; albumReplies := []; postReplies := [];
     discogsReplies := []; masterReplies := [] |}.

Definition release (title : string) (have : Z) (styles : list string)
    : DiscogsSearchResult.t :=
  {| DiscogsSearchResult.Title := title;
     DiscogsSearchResult.Have := have;
     DiscogsSearchResult.Format := ["Album"];
     DiscogsSearchResult.Year := "2022";
     DiscogsSearchResult.Style := styles;
     DiscogsSearchResult.Thumb := EmptyString;
     DiscogsSearchResult.Uri := EmptyString;
     DiscogsSearchResult.Artist := ["Artist"];
     DiscogsSearchResult.MasterURL := EmptyString |}.

Definition onePage (results : list DiscogsSearchResult.t) : Script :=
  {| searchReplies := []; albumReplies := []; postReplies := [];
     discogsReplies :=
       [Success {| DiscogsSearchResponse.Results := results;
                   DiscogsSearchResponse.Next := EmptyString |}];
     masterReplies := [] |}.

Definition searchHit (artist name releaseDate href : string) : SearchAlbum.t :=
  {| SearchAlbum.AlbumType := "album";
     SearchAlbum.Artists := [artist];
     SearchAlbum.Name := name;
     SearchAlbum.ReleaseDate := releaseDate;
     SearchAlbum.Href := href |}.

Definition found (hits : list SearchAlbum.t) : Reply SpotifySearchResponse.t :=
  Success {| SpotifySearchResponse.Items := hits |}.

Definition tracks (uris : list string) : Reply SpotifyAlbumResponse.t :=
  Success {| SpotifyAlbumResponse.Tracks := uris |}.

Definition dopesmoker : Album.t := {| Album.Title := "Sleep - Dopesmoker" |}.
Definition jerusalem : Album.t := {| Album.Title := "Sleep - Jerusalem" |}.

Definition dopesmokerHit : SearchAlbum.t :=
  searchHit "Sleep" "Dopesmoker" "2022-04-20" "https://api.spotify.com/v1/albums/1".
Definition jerusalemHit : SearchAlbum.t :=
  searchHit "Sleep" "Jerusalem" "2022-01-01" "https://api.spotify.com/v1/albums/2".
Definition reissueHit : SearchAlbum.t :=
  searchHit "Sleep" "Dopesmoker" "2012-05-08" "https://api.spotify.com/v1/albums/3".

(** Two albums that share a track; both appends are accepted. *)
Definition sharedTrackScript : Script :=
  {| searchReplies := [found [dopesmokerHit]; found [jerusalemHit]];
     albumReplies := [tracks ["spotify:track:old"; "spotify:track:shared"];
                      tracks ["spotify:track:shared"; "spotify:track:new"]];
     postReplies := [Success tt; Success tt];
     discogsReplies := []; masterReplies := [] |}.

(** The append is refused twice and accepted the third time. *)
Definition flakyScript : Script :=
  {| searchReplies := [found [dopesmokerHit]; found [dopesmokerHit];
                       found [dopesmokerHit]];
     albumReplies := [tracks ["spotify:track:a"]; tracks ["spotify:track:a"];
                      tracks ["spotify:track:a"]];
     postReplies := [Failure "502"; Failure "502"; Success tt];
     discogsReplies := []; masterReplies := [] |}.

(** A search with an older pressing listed first. *)
Definition twoHitsScript : Script :=
  {| searchReplies := [found [reissueHit; dopesmokerHit]];
     albumReplies := []; postReplies := [];
     discogsReplies := []; masterReplies := [] |}.

(** A band search that lists the older album first. *)
Definition bandScript : Script :=
  {| searchReplies := [found [jerusalemHit; dopesmokerHit]];
     albumReplies := []; postReplies := [];
     discogsReplies := []; masterReplies := [] |}.

(** An environment whose catalog always answers with the same single page,
    one release tagged ["Doom Metal"]; the other services refuse. *)
Definition onePageCatalog : Env := {|
  World := unit;
  serveSearch := fun _ w => (Failure "unavailable", w);
  serveAlbum := fun _ w => (Failure "unavailable", w);
  servePlaylistPost := fun _ _ w => (Failure "unavailable", w);
  serveDiscogsSearch := fun _ w =>
    (Success {| DiscogsSearchResponse.Results :=
                  [release "Conan - Evidence" 20 ["Doom Metal"]];
                DiscogsSearchResponse.Next := EmptyString |}, w);
  serveDiscogsMaster := fun _ w => (Failure "unavailable", w);
  urlParseError := fun _ => None;
  areStringsSimilar := String.eqb;
  sortSlice := sortBy;
  discogsToken := "token"
|}.

(** ** Further code of [main.go] *)

(** [SpotifyPlaylistResponse]: [Items] is the list of [Items[i].Track.URI]. *)
Module SpotifyPlaylistResponse.
Record t := { Items : list string; Next : string }.
End SpotifyPlaylistResponse.

(** The album [addLatestAlbumFromBand] hands to
    [addAlbumToSpotifyPlaylist]: its title is
    [fmt.Sprintf("%s - %s", artist, latestAlbum)]. *)
Definition latestAlbumOf (artist latestAlbum : string) : Album.t :=
  {| Album.Title := artist +:+ " - " +:+ latestAlbum |}.

(** ** What the discovery loop lets through *)

(** The tests of the [RESULTS] loop body that a release has passed when its
    title is sent: the style test, the exclusion scan, the copy count, the
    format test and, for a release with a master URL, the year of the
    master as the catalog serves it. *)
Definition accepted {env : Env} (s : SpotifyPlaylistSync.t)
    (style year : string) (result : DiscogsSearchResult.t) : Prop :=
  passesStyle style (DiscogsSearchResult.Style result) = true
  /\ (forall tag exc,
        tag ∈ DiscogsSearchResult.Style result ->
        exc ∈ SpotifyPlaylistSync.excludedStyles s ->
        Contains tag exc = false)
  /\ 10 <= DiscogsSearchResult.Have result
  /\ ("Reissue" ∉ DiscogsSearchResult.Format result)
  /\ ("Remastered" ∉ DiscogsSearchResult.Format result)
  /\ (DiscogsSearchResult.MasterURL result = EmptyString
      \/ exists w masterResponse w',
           serveDiscogsMaster
             (DiscogsSearchResult.MasterURL result +:+ "?token=" +:+ discogsToken) w
           = (Success masterResponse, w')
           /\ Itoa (DiscogsMasterResponse.Year masterResponse) = year).

(** A release that some page of the catalog search can hold. *)
Definition servedRelease {env : Env} (result : DiscogsSearchResult.t) : Prop :=
  exists url w discogsResponse w',
    serveDiscogsSearch url w = (Success discogsResponse, w')
    /\ result ∈ DiscogsSearchResponse.Results discogsResponse.

(** Every send carries the normalised title of a release in [R]. *)
Definition sendsFrom (R : DiscogsSearchResult.t -> Prop) (e : Event) : Prop :=
  match e with
  | EvSend a =>
      exists result,
        R result /\ Album.Title a = normalizeTitle (DiscogsSearchResult.Title result)
  | _ => True
  end.

(** The catalog requests and the sleeps of a trace. *)
Definition isCatalogStep (e : Event) : bool :=
  match e with
  | EvRequest (DiscogsSearch _) | EvRequest (DiscogsMaster _) | EvSleep _ => true
  | _ => false
  end.

Definition catalogView (t : list Event) : list Event :=
  filter (fun e => isCatalogStep e = true) t.

(** Each request followed by a sleep of one second. *)
Definition paced (requests : list Request) : list Event :=
  concat ((fun rq => [EvRequest rq; EvSleep 1]) <$> requests).

(** The catalog steps of a run are paced: every request is followed by
    its sleep, but for a last request whose transport failed, which ends
    the process. *)
Definition pacedRun {A} (r : Result A) (d : list Event) : Prop :=
  exists requests,
    catalogView d = paced requests
    \/ exists rq e,
         r = Halted (LogFatal e)
         /\ catalogView d = paced requests ++ [EvRequest rq].

(** ** The playlist snapshot *)

Section Snapshot.
Context {env : Env}.

(** The playlist-tracks endpoint, asked with GET for the page at a URL. *)
Variable servePlaylistTracks :
  string -> World -> Reply SpotifyPlaylistResponse.t * World.

(** The loop [for { ... }] of [getTracksInPlaylist], run for at most [fuel]
    pages from [playlistUrl] with the URIs collected so far; the result is
    the pair the function returns.  A transport error is [log.Fatal]; any
    other error returns [nil] for the tracks. *)
Fixpoint fetchPlaylistPages (fuel : nat) (playlistUrl : string)
    (tracks : list string) (w : World)
    : Result (list string * option error) * World :=
  match fuel with
  | O => (Halted OutOfFuel, w)
  | S fuel' =>
      match urlParseError playlistUrl with
      | Some e => (Done ([], Some e), w)
      | None =>
          match servePlaylistTracks playlistUrl w with
          | (TransportError e, w') => (Halted (LogFatal e), w')
          | (Failure e, w') => (Done ([], Some e), w')
          | (Success playlistResponse, w') =>
              let tracks' :=
                tracks ++ SpotifyPlaylistResponse.Items playlistResponse in
              if String.eqb (SpotifyPlaylistResponse.Next playlistResponse)
                            EmptyString
              then (Done (tracks', None), w')
              else fetchPlaylistPages fuel'
                     (SpotifyPlaylistResponse.Next playlistResponse) tracks' w'
          end
      end
  end.

(** [getTracksInPlaylist(playlistID)]. *)
Definition getTracksInPlaylist (fuel : nat) (playlistID : string) (w : World)
    : Result (list string * option error) * World :=
  fetchPlaylistPages fuel
    ("https://api.spotify.com/v1/playlists/" +:+ playlistID
       +:+ "/tracks?limit=100")
    [] w.

(** The pages of a playlist as the service hands them out from [url] in
    world [w]: each page names the next, the last names none. *)
Inductive pageChain : string -> World -> list (list string) -> World -> Prop :=
| chain_last url w items w' :
    urlParseError url = None ->
    servePlaylistTracks url w
    = (Success {| SpotifyPlaylistResponse.Items := items;
                  SpotifyPlaylistResponse.Next := EmptyString |}, w') ->
    pageChain url w [items] w'
| chain_next url w items next w1 pages w' :
    urlParseError url = None ->
    next <> EmptyString ->
    servePlaylistTracks url w
    = (Success {| SpotifyPlaylistResponse.Items := items;
                  SpotifyPlaylistResponse.Next := next |}, w1) ->
    pageChain next w1 pages w' ->
    pageChain url w (items :: pages) w'.

End Snapshot.

(** Two playlists for the scripted environment: ["playlist"] has two
    pages; the first page of ["broken"] names a page that is not there. *)
Definition twoPagePlaylist (url : string) (w : Script)
    : Reply SpotifyPlaylistResponse.t * Script :=
  if String.eqb url "https://api.spotify.com/v1/playlists/playlist/tracks?limit=100"
  then (Success {| SpotifyPlaylistResponse.Items :=
                     ["spotify:track:a"; "spotify:track:b"];
                   SpotifyPlaylistResponse.Next := "page2" |}, w)
  else if String.eqb url "page2"
  then (Success {| SpotifyPlaylistResponse.Items := ["spotify:track:c"];
                   SpotifyPlaylistResponse.Next := EmptyString |}, w)
  else if String.eqb url "https://api.spotify.com/v1/playlists/broken/tracks?limit=100"
  then (Success {| SpotifyPlaylistResponse.Items := ["spotify:track:a"];
                   SpotifyPlaylistResponse.Next := "page9" |}, w)
  else (Failure "not found", w).

(** ** What one attempt asks of the services *)

(** An append request goes to the tracks of the playlist [playlistID] and
    carries at least one URI. *)
Definition appendsTo (playlistID : string) (e : Event) : Prop :=
  match e with
  | EvRequest (PostPlaylistTracks url uris) =>
      url = playlistTracksUrl playlistID /\ uris <> []
  | _ => True
  end.

(** The requests one call of [addAlbumToSpotifyPlaylist] can make: the
    search; then the album at a URL; then the append of the album's new
    tracks, of which there is at least one. *)
Definition attemptRequests {env : Env} (album : Album.t) (playlistID : string)
    (currentTracks : gmap string bool) (requests : list Request) : Prop :=
  requests = [SearchAlbums (Album.Title album)]
  \/ (exists albumUrl,
        requests = [SearchAlbums (Album.Title album); GetAlbum albumUrl])
  \/ (exists albumUrl w albumResponse w',
        serveAlbum albumUrl w = (Success albumResponse, w')
        /\ newTrackUris currentTracks (SpotifyAlbumResponse.Tracks albumResponse) <> []
        /\ requests
           = [SearchAlbums (Album.Title album); GetAlbum albumUrl;
              PostPlaylistTracks (playlistTracksUrl playlistID)
                (newTrackUris currentTracks
                   (SpotifyAlbumResponse.Tracks albumResponse))]).

(** ** What the discovery run asks for *)

(** A request of the discovery run is a catalog search, at [firstUrl] or at
    the non-empty next-page link of a page served, or the master of a
    release in [R] at its master URL with the token appended. *)
Definition asksFor {env : Env} (R : DiscogsSearchResult.t -> Prop)
    (firstUrl : string) (e : Event) : Prop :=
  match e with
  | EvRequest (DiscogsSearch url) =>
      url = firstUrl
      \/ exists url' w discogsResponse w',
           serveDiscogsSearch url' w = (Success discogsResponse, w')
           /\ url = DiscogsSearchResponse.Next discogsResponse
           /\ url <> EmptyString
  | EvRequest (DiscogsMaster url) =>
      exists result,
        R result
        /\ DiscogsSearchResult.MasterURL result <> EmptyString
        /\ url = DiscogsSearchResult.MasterURL result +:+ "?token=" +:+ discogsToken
  | EvRequest _ => False
  | _ => True
  end.

(** A release without artists under a style that is not searched for, and
    a search result without artists. *)
Definition artistlessRelease : DiscogsSearchResult.t :=
  {| DiscogsSearchResult.Title := "Untitled";
     DiscogsSearchResult.Have := 20;
     DiscogsSearchResult.Format := ["Album"];
     DiscogsSearchResult.Year := "2022";
     DiscogsSearchResult.Style := ["Sludge Metal"];
     DiscogsSearchResult.Thumb := EmptyString;
     DiscogsSearchResult.Uri := EmptyString;
     DiscogsSearchResult.Artist := [];
     DiscogsSearchResult.MasterURL := EmptyString |}.

Definition artistlessHit : SearchAlbum.t :=
  {| SearchAlbum.AlbumType := "album";
     SearchAlbum.Artists := [];
     SearchAlbum.Name := "Dopesmoker";
     SearchAlbum.ReleaseDate := "2022-04-20";
     SearchAlbum.Href := "https://api.spotify.com/v1/albums/4" |}.

(** ** The lines of verbose mode *)

(** The lines printed through [s.v]. *)
Definition isSkipLine (m : Msg) : bool :=
  match m with
  | SkippingReleaseDate _ _ | SkippingStyle1 _ _ _ | SkippingStyle _ _
  | SkippingExcluded _ _ | SkippingFewCopies _ | SkippingReissue _
  | SkippingMasterYear _ _ _ => true
  | _ => false
  end.

Definition noSkipLine (e : Event) : Prop :=
  match e with
  | EvPrint m => isSkipLine m = false
  | _ => True
  end.

(** ** Deduplication across a run *)

(** The words of the specification: of the titles that normalise alike
    only the first is forwarded.  [firstOccurrencesFrom seen titles] keeps
    each title of [titles] where it occurs first, in order, and leaves out
    the titles in [seen]. *)
Fixpoint firstOccurrencesFrom (seen : gset string) (titles : list string)
    : list string :=
  match titles with
  | [] => []
  | title :: rest =>
      if decide (title ∈ seen) then firstOccurrencesFrom seen rest
      else title :: firstOccurrencesFrom ({[title]} ∪ seen) rest
  end.

Definition firstOccurrences (titles : list string) : list string :=
  firstOccurrencesFrom ∅ titles.

Section Catalog.
Context {env : Env}.

(** What the catalog answers at a URL, when it answers by the URL alone. *)
Variable searchReply : string -> Reply DiscogsSearchResponse.t.
Variable masterReply : string -> Reply DiscogsMasterResponse.t.

Definition statelessCatalog : Prop :=
  (forall url w, serveDiscogsSearch url w = (searchReply url, w))
  /\ (forall url w, serveDiscogsMaster url w = (masterReply url, w)).

(** The result pages from [url] on: each page names the next, the last
    names none. *)
Inductive catalogPages : string -> list (list DiscogsSearchResult.t) -> Prop :=
| pages_last url results :
    urlParseError url = None ->
    searchReply url
    = Success {| DiscogsSearchResponse.Results := results;
                 DiscogsSearchResponse.Next := EmptyString |} ->
    catalogPages url [results]
| pages_next url results next pages :
    urlParseError url = None ->
    next <> EmptyString ->
    searchReply url
    = Success {| DiscogsSearchResponse.Results := results;
                 DiscogsSearchResponse.Next := next |} ->
    catalogPages next pages ->
    catalogPages url (results :: pages).

Definition masterUrlWithToken (result : DiscogsSearchResult.t) : string :=
  DiscogsSearchResult.MasterURL result +:+ "?token=" +:+ discogsToken.

(** A release passes filtering: every test of the loop body lets it
    through to the normalisation of its title. *)
Definition passesFilter (s : SpotifyPlaylistSync.t) (style year : string)
    (result : DiscogsSearchResult.t) : bool :=
  passesStyle style (DiscogsSearchResult.Style result)
  && match findExcluded (DiscogsSearchResult.Style result)
                        (SpotifyPlaylistSync.excludedStyles s) with
     | None => true
     | Some _ => false
     end
  && negb (DiscogsSearchResult.Have result <? 10)
  && negb (isReissueOrRemaster (DiscogsSearchResult.Format result))
  && (String.eqb (DiscogsSearchResult.MasterURL result) EmptyString
      || match masterReply (masterUrlWithToken result) with
         | Success masterResponse =>
             String.eqb (Itoa (DiscogsMasterResponse.Year masterResponse)) year
         | _ => false
         end).

(** The loop body goes on to the next release after this one: no panic on
    a missing artist, no exclusion hit that leaves the page, no master
    that cannot be had. *)
Definition uneventful (s : SpotifyPlaylistSync.t) (style : string)
    (result : DiscogsSearchResult.t) : Prop :=
  (missesOnlyStyle style (DiscogsSearchResult.Style result) = true ->
   DiscogsSearchResult.Artist result <> [])
  /\ (passesStyle style (DiscogsSearchResult.Style result) = true ->
      findExcluded (DiscogsSearchResult.Style result)
                   (SpotifyPlaylistSync.excludedStyles s) = None)
  /\ (DiscogsSearchResult.MasterURL result <> EmptyString ->
      urlParseError (masterUrlWithToken result) = None
      /\ exists masterResponse,
           masterReply (masterUrlWithToken result) = Success masterResponse).

(** The normalised titles of the releases of a list that pass filtering,
    in the order of the list. *)
Definition passingTitles (s : SpotifyPlaylistSync.t) (style year : string)
    (results : list DiscogsSearchResult.t) : list string :=
  (fun result => normalizeTitle (DiscogsSearchResult.Title result))
    <$> filter (fun result => passesFilter s style year result = true) results.

End Catalog.

(** The map [albumsSeen] marks exactly the titles of [titles]. *)
Definition marksExactly (albumsSeen : gmap string bool) (titles : gset string)
    : Prop :=
  forall title, mapGet albumsSeen title = true <-> title ∈ titles.

(** A catalog of two pages that answers by the URL alone; no release has a
    master. *)
Definition twoPageReply (url : string) : Reply DiscogsSearchResponse.t :=
  if String.eqb url
       "https://api.discogs.com/database/search?type=release&style=Doom Metal&format=Album&year=2022&token=token&per_page=100"
  then Success {| DiscogsSearchResponse.Results :=
                    [release "Conan - Evidence" 20 ["Doom Metal"];
                     release "Obituary - Dying" 20 ["Death Metal"]];
                  DiscogsSearchResponse.Next := "page2" |}
  else if String.eqb url "page2"
  then Success {| DiscogsSearchResponse.Results :=
                    [release "Conan - Evidence (2)" 20 ["Doom Metal"];
                     release "Sleep - Dopesmoker" 20 ["Stoner Rock"; "Doom Metal"]];
                  DiscogsSearchResponse.Next := EmptyString |}
  else Failure "not found".

Definition noMaster (url : string) : Reply DiscogsMasterResponse.t :=
  Failure "unavailable".

Definition twoPageCatalog : Env := {|
  World := unit;
  serveSearch := fun _ w => (Failure "unavailable", w);
  serveAlbum := fun _ w => (Failure "unavailable", w);
  servePlaylistPost := fun _ _ w => (Failure "unavailable", w);
  serveDiscogsSearch := fun url w => (twoPageReply url, w);
  serveDiscogsMaster := fun url w => (noMaster url, w);
  urlParseError := fun _ => None;
  areStringsSimilar := String.eqb;
  sortSlice := sortBy;
  discogsToken := "token"
|}.

(** * Properties *)

Local Arguments Rx.matchLen : simpl never.
Local Arguments HasPrefix : simpl nomatch.

(** ** Strings and the pattern *)
Lemma append_empty_l (x : string) : EmptyString +:+ x = x.
Proof. reflexivity. Qed.

Lemma append_cons (c : ascii) (x y : string) : String c x +:+ y = String c (x +:+ y).
Proof. reflexivity. Qed.

Lemma append_nil_r (x : string) : x +:+ EmptyString = x.
Proof. induction x as [|c x IH]; [done|]. by rewrite append_cons, IH. Qed.

Lemma append_assoc (x y z : string) : (x +:+ y) +:+ z = x +:+ (y +:+ z).
Proof. induction x as [|c x IH]; [done|]. by rewrite !append_cons, IH. Qed.

Lemma length_append (x y : string) :
  String.length (x +:+ y) = (String.length x + String.length y)%nat.
Proof. induction x as [|c x IH]; [done|]. rewrite append_cons. simpl. by rewrite IH. Qed.

Lemma replaceFrom_length k s :
  (String.length (Rx.replaceFrom EmptyString k s) <= String.length s)%nat.
Proof.
  revert k. induction s as [|c s IH]; intros k; simpl; [lia|].
  destruct k as [|k].
  - destruct (Rx.matchLen (String c s)) as [n|]; simpl.
    + rewrite append_empty_l. specialize (IH (n - 1)%nat). lia.
    + specialize (IH 0%nat). lia.
  - specialize (IH k). lia.
Qed.

Lemma replaceFrom_shrinks s :
  Rx.MatchString s = true ->
  (String.length (Rx.replaceFrom EmptyString 0 s) < String.length s)%nat.
Proof.
  induction s as [|c s IH]; simpl; [done|].
  destruct (Rx.matchLen (String c s)) as [n|] eqn:E; simpl.
  - intros _. rewrite append_empty_l.
    pose proof (replaceFrom_length (n - 1) s). lia.
  - intros H. specialize (IH H). lia.
Qed.

Lemma replaceFrom_no_match s :
  Rx.MatchString s = false -> Rx.replaceFrom EmptyString 0 s = s.
Proof.
  induction s as [|c s IH]; simpl; [done|].
  intros [H1 H2]%orb_false_elim.
  destruct (Rx.matchLen (String c s)) as [n|] eqn:E.
  - apply bool_decide_eq_false_1 in H1. destruct H1. eauto.
  - by rewrite IH.
Qed.

Lemma replaceFrom_skip_all r k s :
  (String.length s <= k)%nat -> Rx.replaceFrom r k s = EmptyString.
Proof.
  revert k. induction s as [|c s IH]; intros k Hk; simpl in *; [done|].
  destruct k as [|k]; [lia|]. apply IH. lia.
Qed.

Lemma digitRun_app_nondigit rest sp tail :
  Rx.isDigit sp = false ->
  Rx.digitRun (rest +:+ String sp tail) = Rx.digitRun rest.
Proof.
  intros Hsp. induction rest as [|d rest IH]; simpl.
  - by rewrite Hsp.
  - destruct (Rx.isDigit d); [by rewrite IH | done].
Qed.

Lemma get_digitRun_app rest sp tail :
  Rx.isDigit sp = false ->
  String.get (Rx.digitRun rest) (rest +:+ String sp tail)
  = match String.get (Rx.digitRun rest) rest with
    | Some c => Some c
    | None => Some sp
    end.
Proof.
  intros Hsp. induction rest as [|d rest IH]; simpl; [done|].
  destruct (Rx.isDigit d); simpl; [exact IH | done].
Qed.

Lemma matchLen_app_nondigit c b sp tail :
  Rx.isDigit sp = false -> sp <> ")"%char -> sp <> "("%char ->
  Rx.matchLen (String c b) = None ->
  Rx.matchLen (String c (b +:+ String sp tail)) = None.
Proof.
  intros Hd Hc Ho. unfold Rx.matchLen. destruct b as [|c1 rest].
  - intros _. rewrite append_empty_l.
    destruct (Ascii.eqb_spec sp "("%char) as [|_]; [done|].
    by rewrite andb_false_r.
  - rewrite append_cons.
    destruct (Rx.isSpace c && Ascii.eqb c1 "(")%bool; [|done].
    cbv zeta.
    rewrite digitRun_app_nondigit, get_digitRun_app by done.
    destruct (String.get (Rx.digitRun rest) rest) as [x|]; [done|].
    intros _. destruct (Ascii.eqb_spec sp ")"%char) as [|_]; [done|].
    by rewrite andb_false_r.
Qed.

Lemma matchLen_suffix ds tail :
  ds <> EmptyString -> Rx.digitRun ds = String.length ds ->
  Rx.matchLen (String " " (String "(" (ds +:+ String ")" tail)))
  = Some (String.length ds + 3)%nat.
Proof.
  intros Hne Hds. unfold Rx.matchLen.
  change (Rx.isSpace " " && Ascii.eqb "(" "(")%bool with true. cbv iota zeta.
  rewrite digitRun_app_nondigit by done.
  rewrite get_digitRun_app by done.
  assert (String.get (Rx.digitRun ds) ds = None) as ->.
  { rewrite Hds. clear. induction ds; simpl; auto. }
  rewrite Hds. destruct ds; [done|]. reflexivity.
Qed.

Lemma MatchString_cons c s :
  Rx.MatchString (String c s) = false ->
  Rx.matchLen (String c s) = None /\ Rx.MatchString s = false.
Proof.
  simpl. intros [H1 H2]%orb_false_elim. split; [|done].
  apply bool_decide_eq_false_1 in H1.
  destruct (Rx.matchLen (String c s)); [|done]. destruct H1. eauto.
Qed.

Lemma replaceFrom_cons r c s :
  Rx.replaceFrom r 0 (String c s)
  = match Rx.matchLen (String c s) with
    | Some n => r +:+ Rx.replaceFrom r (n - 1) s
    | None => String c (Rx.replaceFrom r 0 s)
    end.
Proof. reflexivity. Qed.

Lemma normalize_suffix base ds :
  Rx.MatchString base = false ->
  ds <> EmptyString -> Rx.digitRun ds = String.length ds ->
  normalizeTitle (base +:+ " (" +:+ ds +:+ ")") = base.
Proof.
  intros Hb Hne Hds. unfold normalizeTitle, Rx.ReplaceAllString.
  induction base as [|c b IH].
  - rewrite append_empty_l.
    change (" (" +:+ ds +:+ ")") with (String " " (String "(" (ds +:+ ")"))).
    rewrite replaceFrom_cons, matchLen_suffix by done.
    rewrite append_empty_l. apply replaceFrom_skip_all.
    simpl. rewrite length_append. simpl. lia.
  - apply MatchString_cons in Hb as [Hm Hb].
    rewrite append_cons, replaceFrom_cons.
    change (" (" +:+ ds +:+ ")") with (String " " ("(" +:+ ds +:+ ")")).
    rewrite matchLen_app_nondigit by done.
    f_equal. by apply IH.
Qed.

(** C4 (fails as stated): one pass can leave a new occurrence behind. *)
Lemma normalization_not_idempotent :
  normalizeTitle (normalizeTitle "Earth (1 (2))") <> normalizeTitle "Earth (1 (2))".
Proof. vm_compute. discriminate. Qed.

(** C4 (amended): normalising twice is the same as normalising once exactly
    when the normalised title has no occurrence of the pattern left; this
    is the case for a title made of a part without occurrence followed by
    one [" (<digits>)"] suffix, which normalises to that part. *)
Theorem normalization_idempotent_iff_no_match_left :
  forall (title : string),
    (normalizeTitle (normalizeTitle title) = normalizeTitle title
     <-> Rx.MatchString (normalizeTitle title) = false)
    /\ (forall base ds,
          title = base +:+ " (" +:+ ds +:+ ")" ->
          Rx.MatchString base = false ->
          ds <> EmptyString -> Rx.digitRun ds = String.length ds ->
          normalizeTitle title = base
          /\ normalizeTitle (normalizeTitle title) = normalizeTitle title).
Proof.
  intros title. split.
  - split.
    + intros Heq. destruct (Rx.MatchString (normalizeTitle title)) eqn:E; [|done].
      apply replaceFrom_shrinks in E.
      unfold normalizeTitle, Rx.ReplaceAllString in *. rewrite Heq in E. lia.
    + apply replaceFrom_no_match.
  - intros base ds -> Hb Hne Hds.
    rewrite normalize_suffix by done. split; [done|].
    by apply replaceFrom_no_match.
Qed.

Lemma splitFrom_no_separator sep cur s :
  Contains s sep = false -> splitFrom sep 0 cur s = [cur +:+ s].
Proof.
  revert cur. induction s as [|c s IH]; intros cur; simpl.
  - intros _. by rewrite append_nil_r.
  - intros [Hp Hc]%orb_false_elim. rewrite Hp.
    rewrite IH by done. by rewrite append_assoc.
Qed.

Lemma splitFrom_nonempty sep k cur s : exists x l, splitFrom sep k cur s = x :: l.
Proof.
  revert k cur. induction s as [|c s IH]; intros k cur; simpl; [eauto|].
  destruct k; [|apply IH].
  destruct (HasPrefix (String c s) sep); [eauto | apply IH].
Qed.

Lemma splitFrom_separator sep cur s :
  Contains s sep = true -> sep <> EmptyString ->
  exists a b rest, splitFrom sep 0 cur s = a :: b :: rest.
Proof.
  intros Hc Hsep. revert cur Hc. induction s as [|c s IH]; intros cur; simpl.
  - destruct sep; [done|]. simpl. done.
  - destruct (HasPrefix (String c s) sep) eqn:Hp; simpl.
    + intros _. destruct (splitFrom_nonempty sep (String.length sep - 1) EmptyString s)
        as (x & l & ->). eauto.
    + intros Hc. by apply IH.
Qed.

Lemma Split_no_separator title :
  Contains title " - " = false -> Split title " - " = [title].
Proof. intros H. unfold Split. by rewrite splitFrom_no_separator. Qed.

Lemma Split_separator title :
  Contains title " - " = true ->
  exists artistName albumName rest,
    Split title " - " = artistName :: albumName :: rest.
Proof. intros H. unfold Split. by apply splitFrom_separator. Qed.

(** ** Traces of the discovery loop *)

Section Logic.
Context {env : Env}.

Lemma post_ret {A} (a : A) Q : Q (Done a) [] -> post (ret a) Q.
Proof. intros HQ st. exists []. simpl. by rewrite app_nil_r. Qed.

Lemma post_halt {A} h (Q : Result A -> list Event -> Prop) :
  Q (Halted h) [] -> post (halt h) Q.
Proof. intros HQ st. exists []. simpl. by rewrite app_nil_r. Qed.

Lemma post_emit e Q : Q (Done tt) [e] -> post (emit e) Q.
Proof. intros HQ st. by exists [e]. Qed.

Lemma post_doRequest {A} rq (serve : World -> Reply A * World) Q :
  (forall r, Q r [EvRequest rq]) -> post (doRequest rq serve) Q.
Proof.
  intros HQ st. exists [EvRequest rq]. unfold doRequest.
  destruct (serve (world st)) as [[e|e|a] w]; simpl; auto.
Qed.

Lemma post_bind {A B} (m : M A) (k : A -> M B) Q1 Q :
  post m Q1 ->
  (forall a d1, Q1 (Done a) d1 -> post (k a) (fun r d2 => Q r (d1 ++ d2))) ->
  (forall h d1, Q1 (Halted h) d1 -> Q (Halted h) d1) ->
  post (bind m k) Q.
Proof.
  intros Hm Hk Hh st. unfold bind.
  destruct (Hm st) as (d1 & Ht & HQ1).
  destruct (m st) as [[a|h] st1]; simpl in *.
  - destruct (Hk a d1 HQ1 st1) as (d2 & Ht2 & HQ2).
    exists (d1 ++ d2). rewrite Ht2, Ht, app_assoc. auto.
  - exists d1. auto.
Qed.

Lemma post_emit_then {B} e (k : unit -> M B) Q :
  post (k tt) (fun r d => Q r (e :: d)) -> post (bind (emit e) k) Q.
Proof.
  intros Hk st. unfold bind, emit.
  destruct (Hk {| world := world st; trace := trace st ++ [e] |})
    as (d & Ht & HQ).
  exists (e :: d). split; [|done].
  rewrite Ht. simpl. by rewrite <- app_assoc.
Qed.

Lemma post_mono {A} (m : M A) (Q Q' : Result A -> list Event -> Prop) :
  post m Q -> (forall r d, Q r d -> Q' r d) -> post m Q'.
Proof.
  intros Hm HQ st. destruct (Hm st) as (d & ? & ?). exists d. auto.
Qed.


Lemma sentTitles_app d1 d2 : sentTitles (d1 ++ d2) = sentTitles d1 ++ sentTitles d2.
Proof. apply omap_app. Qed.

Lemma postedUris_app d1 d2 : postedUris (d1 ++ d2) = postedUris d1 ++ postedUris d2.
Proof. apply omap_app. Qed.

Lemma silent_ret {A} (a : A) : silent (ret a).
Proof. by apply post_ret. Qed.

Lemma silent_halt {A} h : silent (halt (A := A) h).
Proof. by apply post_halt. Qed.

Lemma silent_print m : silent (print m).
Proof. by apply post_emit. Qed.

Lemma silent_sleep n : silent (sleep n).
Proof. by apply post_emit. Qed.

Lemma silent_doRequest {A} rq (serve : World -> Reply A * World) :
  silent (doRequest rq serve).
Proof. by apply post_doRequest. Qed.

Lemma silent_bind {A B} (m : M A) (k : A -> M B) :
  silent m -> (forall a, silent (k a)) -> silent (bind m k).
Proof.
  intros Hm Hk. eapply post_bind; [exact Hm | |].
  - intros a d1 Hd1. eapply post_mono; [apply Hk|].
    intros r d2 Hd2. simpl in *. by rewrite sentTitles_app, Hd1, Hd2.
  - by intros h d1 Hd1.
Qed.

Lemma silent_v s m : silent (v s m).
Proof.
  unfold v. destruct (SpotifyPlaylistSync.verbose s);
    [apply silent_print | apply silent_ret].
Qed.

Lemma silent_index {A} (l : list A) i : silent (index l i).
Proof.
  unfold index. destruct (l !! i); [apply silent_ret | apply silent_halt].
Qed.

End Logic.

(** Opens a computation built from silent steps. *)
Ltac silent_steps :=
  repeat first
    [ apply silent_ret | apply silent_halt | apply silent_print
    | apply silent_sleep | apply silent_doRequest | apply silent_v
    | apply silent_index
    | apply silent_bind; [| intros ?]
    | match goal with
      | |- silent (if ?b then _ else _) => destruct b
      | |- silent (match ?x with _ => _ end) => destruct x
      end ].

Section Discovery.
Context {env : Env}.

Lemma silent_getMasterReleaseYear masterURL : silent (getMasterReleaseYear masterURL).
Proof. unfold getMasterReleaseYear. silent_steps. Qed.

Lemma fresh_nil seen : fresh seen [].
Proof. split; [constructor | intros t Ht; inversion Ht]. Qed.

Lemma marks_nil seen : marks seen seen [].
Proof. split; [auto | intros t Ht; inversion Ht]. Qed.

Lemma fresh_silent seen d : sentTitles d = [] -> fresh seen d.
Proof. intros Hd. unfold fresh. rewrite Hd. split; [constructor | intros t Ht; inversion Ht]. Qed.

Lemma marks_silent seen d : sentTitles d = [] -> marks seen seen d.
Proof. intros Hd. unfold marks. rewrite Hd. split; [auto | intros t Ht; inversion Ht]. Qed.

Lemma fresh_app seen seen' d1 d2 :
  fresh seen d1 -> marks seen seen' d1 -> fresh seen' d2 -> fresh seen (d1 ++ d2).
Proof.
  intros [Hn1 Hf1] [Hk Hm] [Hn2 Hf2]. unfold fresh. rewrite sentTitles_app. split.
  - apply NoDup_app. split_and!; [done | | done].
    intros t Ht1 Ht2. specialize (Hm t Ht1). specialize (Hf2 t Ht2). congruence.
  - intros t [Ht|Ht]%elem_of_app; [auto|].
    specialize (Hf2 t Ht). destruct (mapGet seen t) eqn:E; [|done].
    apply Hk in E. congruence.
Qed.

Lemma marks_app seen seen' seen'' d1 d2 :
  marks seen seen' d1 -> marks seen' seen'' d2 -> marks seen seen'' (d1 ++ d2).
Proof.
  intros [Hk1 Hm1] [Hk2 Hm2]. split; [auto|].
  intros t. rewrite sentTitles_app. intros [Ht|Ht]%elem_of_app; auto.
Qed.

Lemma mapGet_insert seen (t u : string) :
  mapGet (<[t := true]> seen) u = if decide (t = u) then true else mapGet seen u.
Proof. unfold mapGet. rewrite lookup_insert. by case_decide. Qed.

Lemma dedup_forwardAlbum result seen :
  post (forwardAlbum result seen) (dedup seen).
Proof.
  unfold forwardAlbum.
  set (title := normalizeTitle _).
  destruct (mapGet seen title) eqn:E; simpl.
  - apply post_ret. split; [apply fresh_nil | apply marks_nil].
  - apply post_emit_then, post_ret. split.
    + split; [apply NoDup_singleton|]. by intros t ->%list_elem_of_singleton.
    + split.
      * intros t Ht. rewrite mapGet_insert. by case_decide.
      * intros t ->%list_elem_of_singleton. rewrite mapGet_insert. by case_decide.
Qed.

(** A silent step followed by a return leaves the map as it is. *)
Lemma dedup_silent_then {X A} (m : M A) (k : A -> M (X * gmap string bool)) seen :
  silent m ->
  (forall a, post (k a) (dedup seen)) ->
  post (bind m k) (dedup seen).
Proof.
  intros Hm Hk. eapply post_bind; [exact Hm | |].
  - intros a d1 Hd1. eapply post_mono; [apply Hk|].
    intros r d2 [Hf Hr]. split.
    + eapply fresh_app; [by apply fresh_silent | by apply marks_silent | done].
    + destruct r as [[x seen']|]; [|done].
      eapply marks_app; [by apply marks_silent | done].
  - intros h d1 Hd1. split; [by apply fresh_silent | done].
Qed.

Lemma dedup_ret {X} (x : X) seen : post (ret (x, seen)) (dedup seen).
Proof. apply post_ret. split; [apply fresh_nil | apply marks_nil]. Qed.

Lemma dedup_handleResult s style year result seen :
  post (handleResult s style year result seen) (dedup seen).
Proof.
  unfold handleResult.
  repeat first
    [ apply dedup_ret
    | apply dedup_forwardAlbum
    | apply dedup_silent_then;
      [ first [apply silent_v | apply silent_index | apply silent_getMasterReleaseYear]
      | intros ? ]
    | match goal with
      | |- post (if ?b then _ else _) _ => destruct b
      | |- post (match ?x with _ => _ end) _ => destruct x
      end ].
Qed.


Lemma dedup_bind {X Y} (m : M (X * gmap string bool))
    (k : X * gmap string bool -> M (Y * gmap string bool)) seen :
  post m (dedup seen) ->
  (forall x seen', post (k (x, seen')) (dedup seen')) ->
  post (bind m k) (dedup seen).
Proof.
  intros Hm Hk. eapply post_bind; [exact Hm | |].
  - intros [x seen'] d1 [Hf1 Hm1]. eapply post_mono; [apply Hk|].
    intros r d2 [Hf2 Hr]. split; [by eapply fresh_app|].
    destruct r as [[y seen'']|]; [|done]. by eapply marks_app.
  - by intros h d1 [Hf1 _].
Qed.

Lemma dedup_rangeResults s style year results seen :
  post (rangeResults s style year results seen) (dedup seen).
Proof.
  revert seen. induction results as [|result rest IH]; intros seen; simpl.
  - apply dedup_ret.
  - apply dedup_bind; [apply dedup_handleResult|].
    intros [| |err] seen'; [apply IH | apply dedup_ret | apply dedup_ret].
Qed.

Lemma fresh_after_silent {A B} (m : M A) (k : A -> M B) seen :
  silent m ->
  (forall a, post (k a) (fun _ d => fresh seen d)) ->
  post (bind m k) (fun _ d => fresh seen d).
Proof.
  intros Hm Hk. eapply post_bind; [exact Hm | |].
  - intros a d1 Hd1. eapply post_mono; [apply Hk|].
    intros r d2 Hf. simpl.
    eapply fresh_app; [by apply fresh_silent | by apply marks_silent | done].
  - intros h d1 Hd1. by apply fresh_silent.
Qed.

Lemma fresh_after_dedup {X B} (m : M (X * gmap string bool))
    (k : X * gmap string bool -> M B) seen :
  post m (dedup seen) ->
  (forall x seen', post (k (x, seen')) (fun _ d => fresh seen' d)) ->
  post (bind m k) (fun _ d => fresh seen d).
Proof.
  intros Hm Hk. eapply post_bind; [exact Hm | |].
  - intros [x seen'] d1 [Hf1 Hm1]. eapply post_mono; [apply Hk|].
    intros r d2 Hf2. by eapply fresh_app.
  - by intros h d1 [Hf1 _].
Qed.

Lemma fresh_ret {A} (a : A) seen : post (ret a) (fun _ d => fresh seen d).
Proof. apply post_ret, fresh_nil. Qed.

Lemma fresh_searchPages s fuel style year searchUrl seen :
  post (searchPages s fuel style year searchUrl seen) (fun _ d => fresh seen d).
Proof.
  revert searchUrl seen. induction fuel as [|fuel IH]; intros searchUrl seen; simpl.
  - apply post_halt, fresh_nil.
  - apply fresh_after_silent; [apply silent_print | intros _].
    destruct (urlParseError searchUrl); [apply fresh_ret|].
    apply fresh_after_silent; [apply silent_doRequest | intros r].
    apply fresh_after_silent; [apply silent_sleep | intros _].
    destruct r as [discogsResponse|e]; [|apply fresh_ret].
    apply fresh_after_dedup; [apply dedup_rangeResults|].
    intros [err|] seen'; [apply fresh_ret|].
    destruct (String.eqb _ _); [apply fresh_ret | apply IH].
Qed.

(** C5: the style test reads the first two style tags at most.  A release
    with one tag passes exactly when the target style is a suffix of that
    tag; a release with two tags or more passes exactly when the target
    style is a suffix of the first or of the second tag, whatever the
    others are.  The loop body goes by this test: a release that does not
    pass is skipped, with nothing sent; a release that passes goes on to
    the tests that follow, and when it gets through them (no excluded
    style, ten copies or more, no reissue, no master to look up) its
    normalised title is sent unless it is marked already. *)
Theorem style_test_reads_first_two_tags :
  forall (style : string),
    (forall t, passesStyle style [t] = HasSuffix t style)
    /\ (forall t0 t1 rest,
          passesStyle style (t0 :: t1 :: rest)
          = HasSuffix t0 style || HasSuffix t1 style)
    /\ (forall s year result albumsSeen st,
          passesStyle style (DiscogsSearchResult.Style result) = false ->
          exists r st',
            handleResult s style year result albumsSeen st = (r, st')
            /\ (r = Done (NextResult, albumsSeen) \/ r = Halted IndexOutOfRange)
            /\ sentTitles (trace st') = sentTitles (trace st))
    /\ (forall s year result albumsSeen st,
          passesStyle style (DiscogsSearchResult.Style result) = true ->
          findExcluded (DiscogsSearchResult.Style result)
                       (SpotifyPlaylistSync.excludedStyles s) = None ->
          10 <= DiscogsSearchResult.Have result ->
          isReissueOrRemaster (DiscogsSearchResult.Format result) = false ->
          DiscogsSearchResult.MasterURL result = EmptyString ->
          let title := normalizeTitle (DiscogsSearchResult.Title result) in
          handleResult s style year result albumsSeen st
          = (Done (NextResult,
                   if mapGet albumsSeen title then albumsSeen
                   else <[title := true]> albumsSeen),
             {| world := world st;
                trace := trace st
                         ++ (if mapGet albumsSeen title then []
                             else [EvSend {| Album.Title := title |}]) |})).
Proof.
  intros style. split_and!.
  - intros t. unfold passesStyle, missesOnlyStyle, missesFirstTwoStyles, styleAt.
    simpl. by destruct (HasSuffix t style).
  - intros t0 t1 rest.
    unfold passesStyle, missesOnlyStyle, missesFirstTwoStyles, styleAt. simpl.
    by destruct (HasSuffix t0 style), (HasSuffix t1 style).
  - intros s year result albumsSeen st Hp. unfold handleResult, passesStyle in *.
    destruct (missesOnlyStyle style _) eqn:E1.
    + unfold bind, index, v, print, emit, ret, halt.
      destruct (DiscogsSearchResult.Artist result) as [|a0 ?]; simpl.
      * eauto 10.
      * destruct (SpotifyPlaylistSync.verbose s); simpl; eexists _, _;
          (split; [reflexivity|]); split; auto.
        simpl. by rewrite sentTitles_app, app_nil_r.
    + destruct (missesFirstTwoStyles style _) eqn:E2; [|done].
      unfold bind, v, print, emit, ret.
      destruct (SpotifyPlaylistSync.verbose s); simpl; eexists _, _;
        (split; [reflexivity|]); split; auto.
      simpl. by rewrite sentTitles_app, app_nil_r.
  - intros s year result albumsSeen st Hp Hexc Hhave Hformat Hmaster title.
    unfold passesStyle in Hp. apply andb_prop in Hp as [E1 E2].
    apply negb_true_iff in E1, E2. apply Z.ltb_ge in Hhave.
    unfold handleResult. cbv zeta.
    rewrite E1, E2, Hexc, Hhave, Hformat, Hmaster. cbn [String.eqb negb].
    unfold forwardAlbum. cbv zeta. fold title.
    destruct (mapGet albumsSeen title); cbn [negb].
    + unfold ret. rewrite app_nil_r. by destruct st.
    + reflexivity.
Qed.

Lemma HasPrefix_empty s : HasPrefix s EmptyString = true.
Proof. by destruct s. Qed.

Lemma Contains_empty s : Contains s EmptyString = true.
Proof. destruct s; simpl; by rewrite ?HasPrefix_empty. Qed.

Lemma findExcluded_empty_pattern styles :
  styles <> [] -> findExcluded styles [EmptyString] = Some EmptyString.
Proof. destruct styles as [|t rest]; [done|]. intros _. simpl. by rewrite Contains_empty. Qed.

Lemma handleResult_without_flag style year result albumsSeen st :
  DiscogsSearchResult.Style result <> [] ->
  exists r st',
    handleResult (newSync EmptyString) style year result albumsSeen st = (r, st')
    /\ (r = Done (NextResult, albumsSeen)
        \/ r = Done (BreakResults, albumsSeen)
        \/ r = Halted IndexOutOfRange)
    /\ trace st' = trace st.
Proof.
  intros Hst. unfold handleResult.
  destruct (missesOnlyStyle style _).
  { unfold bind, index, v, ret, halt. simpl.
    destruct (DiscogsSearchResult.Artist result); simpl; eauto 10. }
  destruct (missesFirstTwoStyles style _).
  { unfold bind, v, ret. simpl. eauto 10. }
  change (SpotifyPlaylistSync.excludedStyles (newSync EmptyString))
    with [EmptyString].
  rewrite findExcluded_empty_pattern by done.
  unfold bind, v, ret. simpl. eauto 10.
Qed.

Lemma silent_rangeResults_without_flag style year results albumsSeen :
  Forall (fun result => DiscogsSearchResult.Style result <> []) results ->
  silent (rangeResults (newSync EmptyString) style year results albumsSeen).
Proof.
  induction 1 as [|result rest Hst _ IH]; simpl; [apply silent_ret|].
  intros st. unfold bind.
  destruct (handleResult_without_flag style year result albumsSeen st Hst)
    as (r & st' & -> & Hr & Ht).
  destruct Hr as [->|[->| ->]].
  - destruct (IH st') as (d & Hd & Hs). exists d. by rewrite <- Ht.
  - exists []. simpl. by rewrite Ht, app_nil_r.
  - exists []. simpl. by rewrite Ht, app_nil_r.
Qed.

(** The reply a request is answered with is one the service can give. *)
Lemma post_doRequest_served {A} rq (serve : World -> Reply A * World) Q :
  (forall r,
      (forall a, r = Done (inl a) -> exists w w', serve w = (Success a, w')) ->
      Q r [EvRequest rq]) ->
  post (doRequest rq serve) Q.
Proof.
  intros HQ st. exists [EvRequest rq]. unfold doRequest.
  destruct (serve (world st)) as [[e|e|a] w] eqn:E; simpl;
    (split; [done|]); apply HQ; intros a' Ha; simplify_eq; eauto.
Qed.

Lemma silent_searchPages_without_flag fuel style year searchUrl albumsSeen :
  (forall url w discogsResponse w',
      serveDiscogsSearch url w = (Success discogsResponse, w') ->
      Forall (fun result => DiscogsSearchResult.Style result <> [])
             (DiscogsSearchResponse.Results discogsResponse)) ->
  silent (searchPages (newSync EmptyString) fuel style year searchUrl albumsSeen).
Proof.
  intros Hserved. revert searchUrl albumsSeen.
  induction fuel as [|fuel IH]; intros searchUrl albumsSeen; simpl.
  - apply silent_halt.
  - apply silent_bind; [apply silent_print | intros _].
    destruct (urlParseError searchUrl); [apply silent_ret|].
    apply (post_bind _ _
             (fun r d => sentTitles d = []
                         /\ forall a, r = Done (inl a) ->
                              exists w w', serveDiscogsSearch searchUrl w
                                           = (Success a, w'))).
    + apply post_doRequest_served. auto.
    + intros r d1 [Hd1 Hr].
      apply (post_mono _ (fun _ d => sentTitles d = [])).
      2: { intros _ d2 Hd2. by rewrite sentTitles_app, Hd1, Hd2. }
      apply silent_bind; [apply silent_sleep | intros _].
      destruct r as [discogsResponse|e]; [|apply silent_ret].
      destruct (Hr discogsResponse eq_refl) as (w & w' & Hw).
      apply silent_bind.
      * apply silent_rangeResults_without_flag. by eapply Hserved.
      * intros [[err|] albumsSeen']; [apply silent_ret|].
        destruct (String.eqb _ _); [apply silent_ret | apply IH].
    + by intros h d1 [Hd1 _].
Qed.

(** C3: without [-E] the excluded-styles list is the one-element list of
    the empty string and every style tag contains the empty string.  So a
    release that has a style tag is never forwarded: the exclusion scan
    hits on it, the loop body ends in [continue], in [break RESULTS] or in
    a panic, with nothing sent and [albumsSeen] as it was; and a run in
    which every release served has a style tag sends no album at all. *)
Theorem no_exclusion_flag_drops_styled_releases :
  SpotifyPlaylistSync.excludedStyles (newSync EmptyString) = [EmptyString]
  /\ (forall tag, Contains tag EmptyString = true)
  /\ (forall (style year : string) (result : DiscogsSearchResult.t)
             (albumsSeen : gmap string bool) (st : State),
        DiscogsSearchResult.Style result <> [] ->
        findExcluded (DiscogsSearchResult.Style result)
                     (SpotifyPlaylistSync.excludedStyles (newSync EmptyString))
        = Some EmptyString
        /\ exists r st',
             handleResult (newSync EmptyString) style year result albumsSeen st
             = (r, st')
             /\ (r = Done (NextResult, albumsSeen)
                 \/ r = Done (BreakResults, albumsSeen)
                 \/ r = Halted IndexOutOfRange)
             /\ sentTitles (trace st') = sentTitles (trace st))
  /\ (forall (fuel : nat) (style year : string) (st : State),
        (forall url w discogsResponse w',
            serveDiscogsSearch url w = (Success discogsResponse, w') ->
            Forall (fun result => DiscogsSearchResult.Style result <> [])
                   (DiscogsSearchResponse.Results discogsResponse)) ->
        sentTitles (trace (searchDiscogsForAlbums (newSync EmptyString)
                             fuel style year st).2)
        = sentTitles (trace st)).
Proof.
  split_and!; [done | apply Contains_empty | |].
  - intros style year result albumsSeen st Hst.
    split; [by apply findExcluded_empty_pattern|].
    destruct (handleResult_without_flag style year result albumsSeen st Hst)
      as (r & st' & Hrun & Hr & Ht).
    exists r, st'. by rewrite Ht.
  - intros fuel style year st Hserved.
    destruct (silent_searchPages_without_flag fuel style year
                (discogsSearchURL +:+ "?type=release&style=" +:+ style
                 +:+ "&format=Album&year=" +:+ year
                 +:+ "&token=" +:+ discogsToken +:+ "&per_page=100")
                ∅ Hserved st) as (d & Ht & Hd).
    unfold searchDiscogsForAlbums. by rewrite Ht, sentTitles_app, Hd, app_nil_r.
Qed.

End Discovery.

(** C2 (the code differs): an exclusion hit executes [break RESULTS], which
    leaves the loop over the page.  On a page whose first release carries
    the excluded style ["Stoner Rock"] and whose second release passes every
    test, nothing is forwarded; the second release alone is forwarded. *)
Theorem exclusion_hit_drops_rest_of_page :
  sentTitles (trace (searchDiscogsForAlbums (env := scripted)
                (newSync "Stoner Rock") 5 "Doom Metal" "2022"
                (start (onePage
                   [release "Bongzilla - Weedsconsin" 20 ["Doom Metal"; "Stoner Rock"];
                    release "Conan - Evidence" 20 ["Doom Metal"]]))).2)
  = []
  /\ sentTitles (trace (searchDiscogsForAlbums (env := scripted)
                (newSync "Stoner Rock") 5 "Doom Metal" "2022"
                (start (onePage
                   [release "Conan - Evidence" 20 ["Doom Metal"]]))).2)
     = ["Conan - Evidence"].
Proof. split; vm_compute; reflexivity. Qed.

(** ** The resolver *)

Section Resolver.
Context {env : Env}.

Lemma bind_done {A B} (m : M A) (k : A -> M B) st a st' :
  m st = (Done a, st') -> bind m k st = k a st'.
Proof. unfold bind. by intros ->. Qed.

Lemma bind_halted {A B} (m : M A) (k : A -> M B) st h st' :
  m st = (Halted h, st') -> bind m k st = (Halted h, st').
Proof. unfold bind. by intros ->. Qed.

Lemma bind_ret {A B} (a : A) (k : A -> M B) st : bind (ret a) k st = k a st.
Proof. reflexivity. Qed.

Lemma bind_emit {B} e (k : unit -> M B) st :
  bind (emit e) k st = k tt {| world := world st; trace := trace st ++ [e] |}.
Proof. reflexivity. Qed.

Lemma doRequest_success {A} rq (serve : World -> Reply A * World) st a w' :
  serve (world st) = (Success a, w') ->
  doRequest rq serve st
  = (Done (inl a), {| world := w'; trace := trace st ++ [EvRequest rq] |}).
Proof. unfold doRequest. by intros ->. Qed.

Lemma doRequest_failure {A} rq (serve : World -> Reply A * World) st e w' :
  serve (world st) = (Failure e, w') ->
  doRequest rq serve st
  = (Done (inr e), {| world := w'; trace := trace st ++ [EvRequest rq] |}).
Proof. unfold doRequest. by intros ->. Qed.

(** C10: as soon as the search has a result, the title is split on
    [" - "] and the parts 0 and 1 are read without a length check.  For a
    title that does not contain [" - "] the call stops with an index out
    of range right after the search request; it returns no error.  A title
    that contains the separator splits into two parts at least. *)
Theorem addAlbum_panics_without_separator :
  forall (s : SpotifyPlaylistSync.t) (album : Album.t)
         (playlistID year : string) (currentTracks : gmap string bool)
         (st : State) (searchResponse : SpotifySearchResponse.t) (w' : World),
    serveSearch (Album.Title album) (world st) = (Success searchResponse, w') ->
    SpotifySearchResponse.Items searchResponse <> [] ->
    (Contains (Album.Title album) " - " = false ->
     addAlbumToSpotifyPlaylist s album playlistID year currentTracks st
     = (Halted IndexOutOfRange,
        {| world := w';
           trace := trace st ++ [EvRequest (SearchAlbums (Album.Title album))] |}))
    /\ (Contains (Album.Title album) " - " = true ->
        exists artistName albumName rest,
          Split (Album.Title album) " - " = artistName :: albumName :: rest).
Proof.
  intros s album playlistID year currentTracks st searchResponse w' Hserve Hitems.
  split; [|apply Split_separator].
  intros Hc. unfold addAlbumToSpotifyPlaylist.
  erewrite bind_done by (by apply doRequest_success). cbv beta iota.
  destruct (SpotifySearchResponse.Items searchResponse) as [|it items]; [done|].
  rewrite Split_no_separator by done. reflexivity.
Qed.


Lemma requestsOf_app d1 d2 : requestsOf (d1 ++ d2) = requestsOf d1 ++ requestsOf d2.
Proof. apply omap_app. Qed.


Lemma requestsOf_prints d : Forall isPrint d -> requestsOf d = [].
Proof.
  induction 1 as [|e d [m ->] _ IH]; [done|]. exact IH.
Qed.

(** The search loop returns the [Href] of the first matching item and
    prints at most skip lines. *)
Lemma findAlbumUrl_first_match s year artistName albumName items st :
  Forall (fun it => SearchAlbum.Artists it <> []) items ->
  exists skips,
    Forall isPrint skips
    /\ findAlbumUrl s year artistName albumName items st
       = (Done (match List.find (matchesCandidate year artistName albumName) items with
                | Some it => SearchAlbum.Href it
                | None => EmptyString
                end),
          {| world := world st; trace := trace st ++ skips |}).
Proof.
  intros Hall. revert st. induction Hall as [|it items Hit _ IH]; intros st.
  - exists []. split; [constructor|]. simpl. rewrite app_nil_r. by destruct st.
  - simpl. unfold matchesCandidate at 1.
    destruct (String.eqb year EmptyString) eqn:Ey; simpl.
    + destruct (SearchAlbum.Artists it) as [|a0 more] eqn:Ea; [done|]. simpl.
      unfold bind at 1, index, ret. simpl.
      destruct (areStringsSimilar a0 artistName && areStringsSimilar (SearchAlbum.Name it) albumName) eqn:Es.
      * exists []. split; [constructor|]. rewrite app_nil_r. by destruct st.
      * apply IH.
    + destruct (HasPrefix (SearchAlbum.ReleaseDate it) year) eqn:Ep; simpl.
      * destruct (SearchAlbum.Artists it) as [|a0 more] eqn:Ea; [done|]. simpl.
        unfold bind at 1, index, ret. simpl.
        destruct (areStringsSimilar a0 artistName && areStringsSimilar (SearchAlbum.Name it) albumName) eqn:Es.
        -- exists []. split; [constructor|]. rewrite app_nil_r. by destruct st.
        -- apply IH.
      * unfold bind at 1, v, print, emit, ret.
        destruct (SpotifyPlaylistSync.verbose s); simpl.
        -- destruct (IH {| world := world st;
                           trace := trace st ++ [EvPrint (SkippingReleaseDate (SearchAlbum.Name it) (SearchAlbum.ReleaseDate it))] |})
             as (skips & Hs & ->).
           exists (EvPrint (SkippingReleaseDate (SearchAlbum.Name it) (SearchAlbum.ReleaseDate it)) :: skips).
           split; [constructor; [by eexists | done]|].
           simpl. by rewrite <- app_assoc.
        -- apply IH.
Qed.


(** What is left of [addAlbumToSpotifyPlaylist] once the album URL is
    chosen only appends to the trace. *)
Lemma fetch_and_append_starts_with_GetAlbum albumUrl artistName albumName
    playlistID currentTracks :
  post (r <- doRequest (GetAlbum albumUrl) (serveAlbum albumUrl) ;;
          match r with
          | inr e => ret (Some e)
          | inl albumResponse =>
              let playlistUrl := playlistTracksUrl playlistID in
              let trackUris :=
                newTrackUris currentTracks
                  (SpotifyAlbumResponse.Tracks albumResponse) in
              match trackUris with
              | [] => print (NoNewTracks artistName albumName) ;;
                      ret None
              | _ =>
                  match urlParseError playlistUrl with
                  | Some e => ret (Some e)
                  | None =>
                      r <- doRequest
                             (PostPlaylistTracks playlistUrl trackUris)
                             (servePlaylistPost playlistUrl trackUris) ;;
                      match r with
                      | inr e => ret (Some e)
                      | inl _ =>
                          print (Added (length trackUris)
                                       artistName albumName) ;;
                          ret None
                      end
                  end
              end
          end)
       (fun _ d => exists d', d = EvRequest (GetAlbum albumUrl) :: d').
Proof.
  apply (post_bind _ _ (fun _ d => d = [EvRequest (GetAlbum albumUrl)])).
  - by apply post_doRequest.
  - intros r d1 ->.
    apply (post_mono _ (fun _ d => sentTitles d = [])); [|by eauto].
    cbv zeta. change (post ?m (fun _ d => sentTitles d = [])) with (silent m).
    silent_steps.
  - intros h d1 ->. by eauto.
Qed.

(** C7: with a title of the form [artist - album] and search results that
    all name an artist, the resolver takes the first result that passes the
    year test and both similarity tests, and fetches its [Href]; when the
    search has no result, or none passes, it prints a line, returns no
    error and sends no further request. *)
Theorem resolver_takes_first_match_or_skips :
  forall (s : SpotifyPlaylistSync.t) (album : Album.t)
         (playlistID year : string) (currentTracks : gmap string bool)
         (st : State) (searchResponse : SpotifySearchResponse.t) (w' : World)
         (artistName albumName : string) (rest : list string),
    serveSearch (Album.Title album) (world st) = (Success searchResponse, w') ->
    Split (Album.Title album) " - " = artistName :: albumName :: rest ->
    Forall (fun it => SearchAlbum.Artists it <> [])
           (SpotifySearchResponse.Items searchResponse) ->
    let items := SpotifySearchResponse.Items searchResponse in
    let out := addAlbumToSpotifyPlaylist s album playlistID year currentTracks st in
    let skipped (m : Msg) (delta : list Event) :=
      out.1 = Done None
      /\ requestsOf delta = [SearchAlbums (Album.Title album)]
      /\ last delta = Some (EvPrint m) in
    exists delta,
      trace out.2 = trace st ++ delta
      /\ match List.find (matchesCandidate year artistName albumName) items with
         | None =>
             skipped (match items with
                      | [] => NoAlbumsFound (Album.Title album)
                      | _ => NoMatch (Album.Title album)
                      end) delta
         | Some it =>
             (SearchAlbum.Href it = EmptyString ->
              skipped (NoMatch (Album.Title album)) delta)
             /\ (SearchAlbum.Href it <> EmptyString ->
                 urlParseError (SearchAlbum.Href it) = None ->
                 exists more,
                   requestsOf delta
                   = SearchAlbums (Album.Title album)
                     :: GetAlbum (SearchAlbum.Href it) :: more)
         end.
Proof.
  intros s album playlistID year currentTracks st searchResponse w'
         artistName albumName rest Hserve Hsplit Hall items out skipped.
  subst out skipped. unfold addAlbumToSpotifyPlaylist.
  erewrite bind_done by (by apply doRequest_success). cbv beta iota.
  subst items.
  destruct (SpotifySearchResponse.Items searchResponse) as [|it0 items] eqn:Eitems.
  { eexists [_; _]. simpl. rewrite <- app_assoc. split; [reflexivity|]. done. }
  rewrite Hsplit.
  change (index (artistName :: albumName :: rest) 0) with (ret artistName).
  rewrite bind_ret.
  change (index (artistName :: albumName :: rest) 1) with (ret albumName).
  rewrite bind_ret.
  destruct (findAlbumUrl_first_match s year artistName albumName (it0 :: items)
              {| world := w';
                 trace := trace st ++ [EvRequest (SearchAlbums (Album.Title album))] |}
              Hall) as (skips & Hskips & Hfind).
  cbn [world trace] in Hfind.
  erewrite bind_done by exact Hfind. clear Hfind.
  assert (Hnomatch :
    let out := (print (NoMatch (Album.Title album)) ;; ret None)
                 {| world := w';
                    trace := (trace st ++ [EvRequest (SearchAlbums (Album.Title album))])
                             ++ skips |} in
    exists delta, trace out.2 = trace st ++ delta
      /\ out.1 = Done (None : option error)
      /\ requestsOf delta = [SearchAlbums (Album.Title album)]
      /\ last delta = Some (EvPrint (NoMatch (Album.Title album)))).
  { exists ([EvRequest (SearchAlbums (Album.Title album))] ++ skips
            ++ [EvPrint (NoMatch (Album.Title album))]).
    simpl. split_and!; [by rewrite <- !app_assoc | done | |].
    - rewrite requestsOf_app, requestsOf_prints by done. done.
    - change (last ((EvRequest (SearchAlbums (Album.Title album)) :: skips)
                    ++ [EvPrint (NoMatch (Album.Title album))]) = Some (EvPrint (NoMatch (Album.Title album)))).
      apply last_snoc. }
  destruct (List.find (matchesCandidate year artistName albumName) (it0 :: items))
    as [it|] eqn:Efind.
  2: { change (String.eqb EmptyString EmptyString) with true. cbv iota. exact Hnomatch. }
  destruct (String.eqb_spec (SearchAlbum.Href it) EmptyString) as [Hhref|Hhref].
  { destruct Hnomatch as (delta & ? & ? & ? & ?). exists delta. split; [done|].
    split; [done | by intros]. }
  unfold print at 1. rewrite bind_emit. cbn [world trace].
  destruct (urlParseError (SearchAlbum.Href it)) as [e|] eqn:Eparse.
  { eexists. simpl. rewrite <- !app_assoc. split; [reflexivity|].
    split; [done | by intros]. }
  destruct (fetch_and_append_starts_with_GetAlbum (SearchAlbum.Href it)
              artistName albumName playlistID currentTracks
              {| world := w';
                 trace := ((trace st ++ [EvRequest (SearchAlbums (Album.Title album))])
                           ++ skips) ++ [EvPrint (Adding artistName albumName)] |})
    as (d & Hd & d' & ->).
  cbn [world trace] in Hd.
  exists (([EvRequest (SearchAlbums (Album.Title album))] ++ skips)
          ++ [EvPrint (Adding artistName albumName)]
          ++ EvRequest (GetAlbum (SearchAlbum.Href it)) :: d').
  split.
  - etrans; [exact Hd|]. by rewrite <- !app_assoc.
  - split; [done|]. intros _ _. exists (requestsOf d').
    rewrite !requestsOf_app, (requestsOf_prints skips) by done. done.
Qed.

End Resolver.

(** ** The reconciler and the retry loop *)

Section Always.
Context {env : Env}.
Variable P : Event -> Prop.

Lemma always_ret {A} (a : A) : always P (ret a).
Proof. by apply post_ret. Qed.

Lemma always_halt {A} h : always P (halt (A := A) h).
Proof. by apply post_halt. Qed.

Lemma always_emit e : P e -> always P (emit e).
Proof. intros He. apply post_emit. by constructor. Qed.

Lemma always_print m : P (EvPrint m) -> always P (print m).
Proof. apply always_emit. Qed.

Lemma always_sleep n : P (EvSleep n) -> always P (sleep n).
Proof. apply always_emit. Qed.

Lemma always_doRequest {A} rq (serve : World -> Reply A * World) :
  P (EvRequest rq) -> always P (doRequest rq serve).
Proof. intros He. apply post_doRequest. intros _. by constructor. Qed.

Lemma always_bind {A B} (m : M A) (k : A -> M B) :
  always P m -> (forall a, always P (k a)) -> always P (bind m k).
Proof.
  intros Hm Hk. eapply post_bind; [exact Hm | |].
  - intros a d1 Hd1. eapply post_mono; [apply Hk|].
    intros r d2 Hd2. by apply Forall_app.
  - by intros h d1 Hd1.
Qed.

Lemma always_v s m : P (EvPrint m) -> always P (v s m).
Proof.
  intros He. unfold v. destruct (SpotifyPlaylistSync.verbose s);
    [by apply always_print | apply always_ret].
Qed.

Lemma always_index {A} (l : list A) i : always P (index l i).
Proof.
  unfold index. destruct (l !! i); [apply always_ret | apply always_halt].
Qed.

End Always.

(** Opens a computation step by step, leaving the events to be checked. *)
Ltac always_steps :=
  repeat first
    [ apply always_ret | apply always_halt | apply always_index
    | apply always_print | apply always_sleep | apply always_doRequest
    | apply always_v
    | apply always_bind; [| intros ?]
    | match goal with
      | |- always _ (if ?b then _ else _) => destruct b eqn:?
      | |- always _ (match ?x with _ => _ end) => destruct x eqn:?
      end ].

Section Reconciler.
Context {env : Env}.

Lemma always_findAlbumUrl P s year artistName albumName items :
  (forall m, P (EvPrint m)) ->
  always P (findAlbumUrl s year artistName albumName items).
Proof.
  intros HP. induction items as [|it items IH]; simpl.
  - apply always_ret.
  - always_steps; auto.
Qed.

Lemma newTrackUris_unmarked seen tracks :
  Forall (fun uri => mapGet seen uri = false) (newTrackUris seen tracks).
Proof.
  apply Forall_forall. intros u Hu. unfold newTrackUris in Hu.
  by apply list_elem_of_filter in Hu as [? _].
Qed.

Lemma addAlbum_posts_only_new s album playlistID year seen :
  always (postsOnlyNew seen)
         (addAlbumToSpotifyPlaylist s album playlistID year seen).
Proof.
  unfold addAlbumToSpotifyPlaylist. cbv zeta.
  always_steps; try exact I; try (apply always_findAlbumUrl; intros; exact I).
  simpl. match goal with H : newTrackUris _ _ = _ |- _ => rewrite <- H end.
  apply newTrackUris_unmarked.
Qed.

Lemma retryAlbum_posts_only_new s n album playlistID year seen :
  always (postsOnlyNew seen) (retryAlbum s n album playlistID year seen).
Proof.
  induction n as [|n IH]; simpl; [apply always_ret|].
  apply always_bind; [apply addAlbum_posts_only_new|].
  intros [e|]; [|apply always_ret].
  always_steps; try exact I. apply IH.
Qed.

Lemma consumeAlbums_posts_only_new s albums playlistID year seen :
  always (postsOnlyNew seen) (consumeAlbums s albums playlistID year seen).
Proof.
  induction albums as [|album rest IH]; simpl; [apply always_ret|].
  apply always_bind;
    [exact (retryAlbum_posts_only_new s 3 album playlistID year seen)
    | intros _; apply IH].
Qed.

Lemma mapGet_foldl_insert (l : list string) (m : gmap string bool) u :
  mapGet (foldl (fun m track => <[track := true]> m) m l) u = true
  <-> mapGet m u = true \/ u ∈ l.
Proof.
  revert m. induction l as [|t l IH]; intros m; simpl.
  - split; [auto | intros [?|H]; [done | inversion H]].
  - rewrite IH, mapGet_insert. case_decide; subst.
    + split; [intros _; right; left | auto].
    + rewrite elem_of_cons.
      split; [intros [?|?]; auto | intros [?|[?|?]]; [auto | congruence | auto]].
Qed.

Lemma mapGet_tracksAlreadySeen snapshot u :
  mapGet (tracksAlreadySeen snapshot) u = true <-> u ∈ snapshot.
Proof.
  unfold tracksAlreadySeen. rewrite mapGet_foldl_insert.
  unfold mapGet. rewrite lookup_empty. simpl.
  split; [intros [?|?]; done | auto].
Qed.

Lemma postedUris_postsOnlyNew seen d uris :
  Forall (postsOnlyNew seen) d -> uris ∈ postedUris d ->
  Forall (fun uri => mapGet seen uri = false) uris.
Proof.
  intros Hd Hin. unfold postedUris in Hin.
  apply list_elem_of_omap in Hin as (e & He & Hf).
  rewrite Forall_forall in Hd. specialize (Hd e He).
  destruct e as [[]| | |]; simplify_eq. exact Hd.
Qed.

(** C1 (amended): whatever the albums the consumer receives, no append
    request carries a URI of the playlist snapshot.  The map built from the
    snapshot is the one every album is filtered against. *)
Theorem snapshot_uris_are_never_appended :
  forall (s : SpotifyPlaylistSync.t) (albums : list Album.t)
         (playlistID year : string) (currentTracks : list string) (st : State),
    exists delta,
      trace (consumeAlbums s albums playlistID year
               (tracksAlreadySeen currentTracks) st).2
      = trace st ++ delta
      /\ forall uris uri,
           uris ∈ postedUris delta -> uri ∈ uris -> uri ∉ currentTracks.
Proof.
  intros s albums playlistID year currentTracks st.
  destruct (consumeAlbums_posts_only_new s albums playlistID year
              (tracksAlreadySeen currentTracks) st) as (delta & Ht & Hd).
  exists delta. split; [exact Ht|].
  intros uris uri Huris Huri Hin.
  pose proof (postedUris_postsOnlyNew _ _ _ Hd Huris) as Hall.
  rewrite Forall_forall in Hall. specialize (Hall uri Huri).
  apply mapGet_tracksAlreadySeen in Hin. congruence.
Qed.


Lemma retryView_app d1 d2 : retryView (d1 ++ d2) = retryView d1 ++ retryView d2.
Proof. apply filter_app. Qed.

Lemma retryView_none d :
  Forall (fun e => isRetryStep e = false) d -> retryView d = [].
Proof.
  induction 1 as [|e d He _ IH]; [done|].
  unfold retryView in *. rewrite filter_cons_False by congruence. exact IH.
Qed.

(** One attempt shows as one search. *)
Lemma addAlbum_retryView s album playlistID year seen :
  post (addAlbumToSpotifyPlaylist s album playlistID year seen)
       (fun _ d => retryView d = [EvRequest (SearchAlbums (Album.Title album))]).
Proof.
  unfold addAlbumToSpotifyPlaylist.
  apply (post_bind _ _
           (fun _ d => d = [EvRequest (SearchAlbums (Album.Title album))])).
  - by apply post_doRequest.
  - intros r d1 ->.
    apply (post_mono _ (fun _ d => Forall (fun e => isRetryStep e = false) d)).
    2: { intros _ d Hd. rewrite retryView_app, (retryView_none d) by done. done. }
    match goal with
    | |- post ?m (fun _ d => Forall ?Q d) => change (always Q m)
    end.
    cbv zeta.
    always_steps; try reflexivity; apply always_findAlbumUrl; reflexivity.
  - by intros h d1 ->.
Qed.

Lemma retryAlbum_retryView s n album playlistID year seen :
  post (retryAlbum s n album playlistID year seen)
       (fun _ d => exists k,
          (k <= n)%nat
          /\ (retryView d = failedAttempts album k
              \/ ((k < n)%nat
                  /\ retryView d
                     = failedAttempts album k
                       ++ [EvRequest (SearchAlbums (Album.Title album))]))).
Proof.
  induction n as [|n IH]; simpl.
  - apply post_ret. exists 0%nat. split; [lia | by left].
  - eapply post_bind; [apply addAlbum_retryView | |].
    + intros [e|] d1 Hd1.
      * apply post_emit_then, post_emit_then.
        eapply post_mono; [apply IH|].
        intros _ d2 (k & Hk & Hview). exists (S k). split; [lia|].
        rewrite retryView_app, Hd1.
        change (retryView (EvPrint (Retrying (Album.Title album)) :: EvSleep 30 :: d2))
          with (EvSleep 30 :: retryView d2).
        destruct Hview as [->|[Hlt ->]]; [by left | right].
        split; [lia | done].
      * apply post_ret. exists 0%nat. split; [lia|]. right. split; [lia|].
        by rewrite app_nil_r.
    + intros h d1 Hd1. exists 0%nat. split; [lia|]. right. split; [lia | done].
Qed.


End Reconciler.

(** ** Band mode *)

Section Band.
Context {env : Env}.

Lemma firstAlbumOf_find artist items st :
  Forall (fun it => SearchAlbum.Artists it <> []) items ->
  firstAlbumOf artist items st
  = (Done (SearchAlbum.Name <$> List.find (byArtist artist) items), st).
Proof.
  induction 1 as [|it items Hit _ IH]; simpl; [done|].
  unfold byArtist at 1.
  destruct (SearchAlbum.Artists it) as [|a0 more]; [done|].
  change (index (a0 :: more) 0) with (ret a0). rewrite bind_ret. simpl.
  by destruct (areStringsSimilar a0 artist).
Qed.

Lemma laterRelease_irrefl a : laterRelease a a = false.
Proof.
  unfold laterRelease, String.ltb.
  pose proof (String.compare_antisym (SearchAlbum.ReleaseDate a)
                                     (SearchAlbum.ReleaseDate a)) as H.
  by destruct (String.compare _ _).
Qed.


End Band.

(** ** Deduplication across the pages of a run *)

#[local] Set Warnings "-clear-no-such-hyp".

Lemma firstOccurrencesFrom_app seen l1 l2 :
  firstOccurrencesFrom seen (l1 ++ l2)
  = firstOccurrencesFrom seen l1
    ++ firstOccurrencesFrom (seen ∪ list_to_set l1) l2.
Proof.
  revert seen. induction l1 as [|title l1 IH]; intros seen; simpl.
  - f_equal. set_solver.
  - destruct (decide (title ∈ seen)).
    + rewrite IH. do 2 f_equal. set_solver.
    + simpl. rewrite IH. do 3 f_equal. set_solver.
Qed.

Lemma firstOccurrencesFrom_snoc seen l title :
  firstOccurrencesFrom seen (l ++ [title])
  = firstOccurrencesFrom seen l
    ++ (if decide (title ∈ seen \/ title ∈ l) then [] else [title]).
Proof.
  rewrite firstOccurrencesFrom_app. f_equal. simpl.
  destruct (decide (title ∈ seen ∪ list_to_set l)) as [Hin|Hout];
    destruct (decide (title ∈ seen \/ title ∈ l)) as [Hin'|Hout'];
    try done; exfalso.
  - apply Hout'. set_solver.
  - apply Hout. set_solver.
Qed.

Section Dedup.
Context {env : Env}.
Variable searchReply : string -> Reply DiscogsSearchResponse.t.
Variable masterReply : string -> Reply DiscogsMasterResponse.t.
Hypothesis Hcatalog : statelessCatalog searchReply masterReply.
Variable s : SpotifyPlaylistSync.t.
Variables style year : string.

Lemma v_exact m st :
  exists st',
    v s m st = (Done tt, st')
    /\ world st' = world st
    /\ sentTitles (trace st') = sentTitles (trace st).
Proof.
  unfold v, print, emit, ret.
  destruct (SpotifyPlaylistSync.verbose s); eexists; split_and!; try reflexivity.
  simpl. by rewrite sentTitles_app, app_nil_r.
Qed.

Lemma forwardAlbum_exact result albumsSeen st :
  exists albumsSeen' st',
    forwardAlbum result albumsSeen st = (Done (NextResult, albumsSeen'), st')
    /\ world st' = world st
    /\ sentTitles (trace st')
       = sentTitles (trace st)
         ++ (if negb (mapGet albumsSeen
                        (normalizeTitle (DiscogsSearchResult.Title result)))
             then [normalizeTitle (DiscogsSearchResult.Title result)] else [])
    /\ (forall t,
          mapGet albumsSeen' t = true
          <-> mapGet albumsSeen t = true
              \/ t = normalizeTitle (DiscogsSearchResult.Title result)).
Proof.
  unfold forwardAlbum. cbv zeta.
  destruct (mapGet albumsSeen _) eqn:E; simpl.
  - exists albumsSeen, st. split_and!; [done|done|by rewrite app_nil_r|].
    intros t. split; [auto | intros [?| ->]; done].
  - eexists _, _. split_and!; [reflexivity|done| |].
    + simpl. by rewrite sentTitles_app.
    + intros t. rewrite mapGet_insert. case_decide; subst.
      * split; auto.
      * split; [auto | intros [?|?]; done].
Qed.

Lemma getMasterReleaseYear_exact result masterResponse st :
  urlParseError (masterUrlWithToken result) = None ->
  masterReply (masterUrlWithToken result) = Success masterResponse ->
  exists st',
    getMasterReleaseYear (DiscogsSearchResult.MasterURL result) st
    = (Done (Itoa (DiscogsMasterResponse.Year masterResponse), None), st')
    /\ world st' = world st
    /\ sentTitles (trace st') = sentTitles (trace st).
Proof.
  intros Hparse Hreply. unfold getMasterReleaseYear. cbv zeta.
  unfold masterUrlWithToken in *. rewrite Hparse.
  erewrite bind_done;
    [|apply doRequest_success; by rewrite (proj2 Hcatalog), Hreply].
  unfold sleep. rewrite bind_emit. eexists. split_and!; [reflexivity|done|].
  simpl. by rewrite !sentTitles_app, !app_nil_r.
Qed.

(** The loop body on a release it goes past: the title is sent exactly
    when the release passes filtering and the title is not yet marked. *)
Lemma handleResult_exact result albumsSeen st :
  uneventful masterReply s style result ->
  exists albumsSeen' st',
    handleResult s style year result albumsSeen st
    = (Done (NextResult, albumsSeen'), st')
    /\ world st' = world st
    /\ sentTitles (trace st')
       = sentTitles (trace st)
         ++ (if passesFilter masterReply s style year result
                && negb (mapGet albumsSeen
                           (normalizeTitle (DiscogsSearchResult.Title result)))
             then [normalizeTitle (DiscogsSearchResult.Title result)] else [])
    /\ (forall t,
          mapGet albumsSeen' t = true
          <-> mapGet albumsSeen t = true
              \/ (passesFilter masterReply s style year result = true
                  /\ t = normalizeTitle (DiscogsSearchResult.Title result))).
Proof.
  intros (Hartist & Hexc & Hmaster).
  assert (Hskip : forall m,
    passesFilter masterReply s style year result = false ->
    exists albumsSeen' st',
      (v s m ;; ret (NextResult, albumsSeen)) st
      = (Done (NextResult, albumsSeen'), st')
      /\ world st' = world st
      /\ sentTitles (trace st')
         = sentTitles (trace st)
           ++ (if passesFilter masterReply s style year result
                  && negb (mapGet albumsSeen
                             (normalizeTitle (DiscogsSearchResult.Title result)))
               then [normalizeTitle (DiscogsSearchResult.Title result)] else [])
      /\ (forall t,
            mapGet albumsSeen' t = true
            <-> mapGet albumsSeen t = true
                \/ (passesFilter masterReply s style year result = true
                    /\ t = normalizeTitle (DiscogsSearchResult.Title result)))).
  { intros m Hno. destruct (v_exact m st) as (st' & Hv & Hw & Ht).
    rewrite (bind_done _ _ _ _ _ Hv). exists albumsSeen, st'. rewrite Hno.
    split_and!; [done|done|by rewrite app_nil_r|].
    intros t. split; [auto | intros [?|[? _]]; done]. }
  unfold handleResult. cbv zeta.
  destruct (missesOnlyStyle style _) eqn:E1.
  { destruct (DiscogsSearchResult.Artist result) as [|a0 more] eqn:Ea;
      [by destruct (Hartist eq_refl)|].
    change (index (a0 :: more) 0) with (ret a0). rewrite bind_ret.
    apply Hskip. unfold passesFilter, passesStyle. by rewrite E1. }
  destruct (missesFirstTwoStyles style _) eqn:E2.
  { apply Hskip. unfold passesFilter, passesStyle. by rewrite E1, E2. }
  rewrite Hexc by (unfold passesStyle; by rewrite E1, E2).
  destruct (DiscogsSearchResult.Have result <? 10) eqn:E4.
  { apply Hskip. unfold passesFilter. rewrite E4. simpl.
    by rewrite andb_false_r. }
  destruct (isReissueOrRemaster _) eqn:E5.
  { apply Hskip. unfold passesFilter. rewrite E5. simpl.
    by rewrite andb_false_r. }
  assert (Hfilter :
    passesFilter masterReply s style year result
    = (String.eqb (DiscogsSearchResult.MasterURL result) EmptyString
       || match masterReply (masterUrlWithToken result) with
          | Success masterResponse =>
              String.eqb (Itoa (DiscogsMasterResponse.Year masterResponse)) year
          | _ => false
          end)).
  { unfold passesFilter, passesStyle. rewrite E1, E2, E4, E5.
    by rewrite Hexc by (unfold passesStyle; by rewrite E1, E2). }
  destruct (String.eqb (DiscogsSearchResult.MasterURL result) EmptyString) eqn:E6;
    cbn [negb].
  - destruct (forwardAlbum_exact result albumsSeen st)
      as (seen' & st' & Hrun & Hw & Ht & Hmarks).
    exists seen', st'. rewrite Hfilter. cbn [orb andb].
    split_and!; [done..|]. intros t. rewrite Hmarks. naive_solver.
  - apply String.eqb_neq in E6.
    destruct (Hmaster E6) as (Hparse & masterResponse & Hreply).
    destruct (getMasterReleaseYear_exact result masterResponse st Hparse Hreply)
      as (st1 & Hrun1 & Hw1 & Ht1).
    rewrite (bind_done _ _ _ _ _ Hrun1). cbv beta iota.
    rewrite Hreply in Hfilter. cbn [orb] in Hfilter.
    destruct (String.eqb (Itoa _) year) eqn:E7; cbn [negb].
    + destruct (forwardAlbum_exact result albumsSeen st1)
        as (seen' & st' & Hrun & Hw & Ht & Hmarks).
      exists seen', st'. rewrite Hfilter. cbn [andb].
      split_and!; [done|congruence|by rewrite Ht, Ht1|].
      intros t. rewrite Hmarks. naive_solver.
    + destruct (v_exact (SkippingMasterYear (DiscogsSearchResult.Title result)
                           (Itoa (DiscogsMasterResponse.Year masterResponse)) year)
                  st1) as (st' & Hv & Hw & Ht).
      rewrite (bind_done _ _ _ _ _ Hv). exists albumsSeen, st'. rewrite Hfilter.
      split_and!; [done|congruence|by rewrite Ht, Ht1, app_nil_r|].
      intros t. split; [auto | intros [?|[? _]]; done].
Qed.

Lemma passingTitles_cons result results :
  passingTitles masterReply s style year (result :: results)
  = (if passesFilter masterReply s style year result
     then [normalizeTitle (DiscogsSearchResult.Title result)] else [])
    ++ passingTitles masterReply s style year results.
Proof.
  unfold passingTitles. rewrite filter_cons.
  destruct (passesFilter masterReply s style year result).
  - by rewrite decide_True.
  - by rewrite decide_False.
Qed.

Lemma passingTitles_app l1 l2 :
  passingTitles masterReply s style year (l1 ++ l2)
  = passingTitles masterReply s style year l1
    ++ passingTitles masterReply s style year l2.
Proof. unfold passingTitles. by rewrite filter_app, fmap_app. Qed.

(** One page: the titles sent are the first occurrences of the passing
    titles of the page, the marked ones left out. *)
Lemma rangeResults_exact results :
  Forall (uneventful masterReply s style) results ->
  forall albumsSeen seen st,
    marksExactly albumsSeen seen ->
    exists albumsSeen' st',
      rangeResults s style year results albumsSeen st
      = (Done (None, albumsSeen'), st')
      /\ world st' = world st
      /\ sentTitles (trace st')
         = sentTitles (trace st)
           ++ firstOccurrencesFrom seen
                (passingTitles masterReply s style year results)
      /\ marksExactly albumsSeen'
           (seen ∪ list_to_set (passingTitles masterReply s style year results)).
Proof.
  induction 1 as [|result rest Hresult _ IH]; intros albumsSeen seen st Hseen.
  - exists albumsSeen, st. simpl. split_and!; [done|done|by rewrite app_nil_r|].
    intros t. rewrite (Hseen t). set_solver.
  - cbn [rangeResults].
    destruct (handleResult_exact result albumsSeen st Hresult)
      as (seen1 & st1 & Hrun1 & Hw1 & Ht1 & Hmarks1).
    rewrite (bind_done _ _ _ _ _ Hrun1). cbv beta iota.
    rewrite passingTitles_cons.
    destruct (passesFilter masterReply s style year result) eqn:Hpass;
      cbn [andb app firstOccurrencesFrom] in *.
    + set (title := normalizeTitle (DiscogsSearchResult.Title result)) in *.
      destruct (decide (title ∈ seen)) as [Hin|Hout].
      * assert (Hseen1 : marksExactly seen1 seen).
        { intros t. rewrite Hmarks1, (Hseen t). set_solver. }
        destruct (IH seen1 seen st1 Hseen1) as (seen' & st' & Hrun & Hw & Ht & Hm).
        exists seen', st'. split_and!; [done|congruence| |].
        -- rewrite Ht, Ht1. apply Hseen in Hin. rewrite Hin. simpl.
           by rewrite app_nil_r.
        -- intros t. rewrite (Hm t). set_solver.
      * assert (Hseen1 : marksExactly seen1 ({[title]} ∪ seen)).
        { intros t. rewrite Hmarks1, (Hseen t). set_solver. }
        destruct (IH seen1 ({[title]} ∪ seen) st1 Hseen1)
          as (seen' & st' & Hrun & Hw & Ht & Hm).
        exists seen', st'. split_and!; [done|congruence| |].
        -- rewrite Ht, Ht1.
           assert (mapGet albumsSeen title = false) as ->.
           { apply not_true_is_false. by rewrite (Hseen title). }
           simpl. by rewrite <- app_assoc.
        -- intros t. rewrite (Hm t). set_solver.
    + assert (Hseen1 : marksExactly seen1 seen).
      { intros t. rewrite Hmarks1, (Hseen t). naive_solver. }
      destruct (IH seen1 seen st1 Hseen1) as (seen' & st' & Hrun & Hw & Ht & Hm).
      exists seen', st'. split_and!; [done|congruence| |done].
      rewrite Ht, Ht1. by rewrite app_nil_r.
Qed.

(** All pages: the seen map of one page is the seen map the next page
    starts with. *)
Lemma searchPages_exact url pages :
  catalogPages searchReply url pages ->
  Forall (uneventful masterReply s style) (concat pages) ->
  forall fuel albumsSeen seen st,
    marksExactly albumsSeen seen ->
    (length pages <= fuel)%nat ->
    exists st',
      searchPages s fuel style year url albumsSeen st = (Done None, st')
      /\ world st' = world st
      /\ sentTitles (trace st')
         = sentTitles (trace st)
           ++ firstOccurrencesFrom seen
                (passingTitles masterReply s style year (concat pages)).
Proof.
  induction 1 as [url results Hparse Hreply
                 |url results next pages Hparse Hnext Hreply _ IH];
    intros Hall [|fuel] albumsSeen seen st Hseen Hfuel; simpl in Hfuel; try lia;
    cbn [searchPages concat] in *.
  - rewrite app_nil_r in *.
    unfold print, sleep. rewrite bind_emit, Hparse.
    erewrite bind_done;
      [|apply doRequest_success; cbn [world];
        by rewrite (proj1 Hcatalog), Hreply].
    rewrite bind_emit. cbn [DiscogsSearchResponse.Results DiscogsSearchResponse.Next].
    match goal with |- exists _, bind (rangeResults _ _ _ _ _) _ ?st0 = _ /\ _ =>
      destruct (rangeResults_exact results Hall albumsSeen seen st0 Hseen)
        as (seen' & st' & Hrun & Hw & Ht & Hm) end.
    cbn [world trace] in Hw, Ht.
    rewrite (bind_done _ _ _ _ _ Hrun). cbv beta iota. cbn [String.eqb].
    exists st'. split_and!; [done|done|].
    rewrite Ht. cbn [trace]. by rewrite !sentTitles_app, !app_nil_r.
  - apply Forall_app in Hall as [Hresults Hrest].
    unfold print, sleep. rewrite bind_emit, Hparse.
    erewrite bind_done;
      [|apply doRequest_success; cbn [world];
        by rewrite (proj1 Hcatalog), Hreply].
    rewrite bind_emit. cbn [DiscogsSearchResponse.Results DiscogsSearchResponse.Next].
    match goal with |- exists _, bind (rangeResults _ _ _ _ _) _ ?st0 = _ /\ _ =>
      destruct (rangeResults_exact results Hresults albumsSeen seen st0 Hseen)
        as (seen' & st' & Hrun & Hw & Ht & Hm) end.
    cbn [world trace] in Hw, Ht.
    rewrite (bind_done _ _ _ _ _ Hrun). cbv beta iota.
    apply String.eqb_neq in Hnext as ->.
    destruct (IH Hrest fuel seen' _ st' Hm ltac:(lia)) as (st'' & Hrun' & Hw' & Ht').
    exists st''. split_and!; [done|congruence|].
    rewrite Ht', Ht. cbn [trace].
    rewrite passingTitles_app, firstOccurrencesFrom_app.
    by rewrite !sentTitles_app, !app_nil_r, <- app_assoc.
Qed.

End Dedup.


(** ** The theorems at concrete runs *)

(** C1 (fails as stated): the seen-track map is not updated after an
    append.  Two albums share a track that the snapshot does not hold; both
    appends are accepted and both carry the shared URI. *)
Lemma shared_uri_is_appended_twice :
  let posted :=
    postedUris (trace (consumeAlbums (env := scripted) (newSync EmptyString)
                  [dopesmoker; jerusalem] "playlist" "2022"
                  (tracksAlreadySeen ["spotify:track:old"])
                  (start sharedTrackScript)).2) in
  posted = [["spotify:track:shared"];
            ["spotify:track:shared"; "spotify:track:new"]]
  /\ ~ NoDup (concat posted).
Proof.
  assert (E : postedUris (trace (consumeAlbums (env := scripted) (newSync EmptyString)
                  [dopesmoker; jerusalem] "playlist" "2022"
                  (tracksAlreadySeen ["spotify:track:old"])
                  (start sharedTrackScript)).2)
              = [["spotify:track:shared"];
                 ["spotify:track:shared"; "spotify:track:new"]])
    by (vm_compute; reflexivity).
  cbv zeta. rewrite E. split; [reflexivity|].
  simpl. intros Hnd. apply NoDup_cons in Hnd as [Hnotin _].
  apply Hnotin. left.
Qed.

Lemma snapshot_uris_are_never_appended_witness :
  exists delta,
    trace (consumeAlbums (env := scripted) (newSync EmptyString)
             [dopesmoker; jerusalem] "playlist" "2022"
             (tracksAlreadySeen ["spotify:track:old"])
             (start sharedTrackScript)).2
    = trace (start sharedTrackScript) ++ delta
    /\ forall uris uri,
         uris ∈ postedUris delta -> uri ∈ uris ->
         uri ∉ ["spotify:track:old"].
Proof.
  exact (snapshot_uris_are_never_appended (env := scripted) (newSync EmptyString)
           [dopesmoker; jerusalem] "playlist" "2022" ["spotify:track:old"]
           (start sharedTrackScript)).
Defined.

Lemma no_exclusion_flag_drops_styled_releases_witness :
  (DiscogsSearchResult.Style (release "Conan - Evidence" 20 ["Doom Metal"]) <> []
   /\ findExcluded
        (DiscogsSearchResult.Style (release "Conan - Evidence" 20 ["Doom Metal"]))
        (SpotifyPlaylistSync.excludedStyles (newSync EmptyString))
      = Some EmptyString)
  /\ sentTitles (trace (searchDiscogsForAlbums (env := onePageCatalog)
                   (newSync EmptyString) 3 "Doom Metal" "2022"
                   (@Build_State onePageCatalog tt [])).2)
     = [].
Proof.
  assert (H : DiscogsSearchResult.Style
                (release "Conan - Evidence" 20 ["Doom Metal"]) <> [])
    by discriminate.
  split; [split; [exact H|] |].
  - exact (proj1 (proj1 (proj2 (proj2
             (no_exclusion_flag_drops_styled_releases (env := scripted))))
             "Doom Metal" "2022" (release "Conan - Evidence" 20 ["Doom Metal"])
             ∅ (start emptyScript) H)).
  - apply (proj2 (proj2 (proj2
             (no_exclusion_flag_drops_styled_releases (env := onePageCatalog))))
             3%nat "Doom Metal" "2022" (@Build_State onePageCatalog tt [])).
    intros url w discogsResponse w' Hserve.
    injection Hserve as <- _. repeat constructor. exact H.
Defined.

Lemma normalization_idempotent_iff_no_match_left_witness :
  normalizeTitle "Ghost (2)" = "Ghost"
  /\ normalizeTitle (normalizeTitle "Ghost (2)") = normalizeTitle "Ghost (2)".
Proof.
  apply (proj2 (normalization_idempotent_iff_no_match_left "Ghost (2)")
           "Ghost" "2"); [reflexivity | reflexivity | discriminate | reflexivity].
Defined.

Lemma style_test_reads_first_two_tags_witness :
  (passesStyle "Doom Metal" (DiscogsSearchResult.Style
                               (release "Obituary - Dying" 20 ["Death Metal"]))
   = false
   /\ exists r st',
        handleResult (env := scripted) (newSync EmptyString) "Doom Metal" "2022"
          (release "Obituary - Dying" 20 ["Death Metal"]) ∅ (start emptyScript)
        = (r, st')
        /\ (r = Done (NextResult, ∅) \/ r = Halted IndexOutOfRange)
        /\ sentTitles (trace st') = sentTitles (trace (start emptyScript)))
  /\ (passesStyle "Doom Metal" (DiscogsSearchResult.Style
                                  (release "Conan - Evidence (2)" 20
                                     ["Funeral Doom Metal"]))
      = true
      /\ handleResult (env := scripted) (newSync "Sludge") "Doom Metal" "2022"
           (release "Conan - Evidence (2)" 20 ["Funeral Doom Metal"]) ∅
           (start emptyScript)
         = (Done (NextResult, <["Conan - Evidence" := true]> ∅),
            @Build_State scripted emptyScript
              [EvSend {| Album.Title := "Conan - Evidence" |}])).
Proof.
  split.
  - split; [reflexivity|].
    apply (proj1 (proj2 (proj2 (style_test_reads_first_two_tags (env := scripted)
                                  "Doom Metal")))).
    reflexivity.
  - split; [reflexivity|].
    exact (proj2 (proj2 (proj2 (style_test_reads_first_two_tags (env := scripted)
                                  "Doom Metal")))
             (newSync "Sludge") "2022"
             (release "Conan - Evidence (2)" 20 ["Funeral Doom Metal"]) ∅
             (start emptyScript) eq_refl eq_refl ltac:(done) eq_refl eq_refl).
Defined.

Lemma addAlbum_panics_without_separator_witness :
  addAlbumToSpotifyPlaylist (env := scripted) (newSync EmptyString)
    {| Album.Title := "Dopesmoker" |} "playlist" "2022" ∅ (start twoHitsScript)
  = (Halted IndexOutOfRange,
     @Build_State scripted emptyScript
       (trace (start twoHitsScript) ++ [EvRequest (SearchAlbums "Dopesmoker")])).
Proof.
  apply (proj1 (addAlbum_panics_without_separator (env := scripted)
                  (newSync EmptyString) {| Album.Title := "Dopesmoker" |}
                  "playlist" "2022" ∅ (start twoHitsScript)
                  {| SpotifySearchResponse.Items := [reissueHit; dopesmokerHit] |}
                  emptyScript eq_refl ltac:(discriminate))).
  reflexivity.
Defined.

Lemma resolver_takes_first_match_or_skips_witness :
  exists more,
    requestsOf (trace (addAlbumToSpotifyPlaylist (env := scripted)
                  (newSync EmptyString) dopesmoker "playlist" "2022" ∅
                  (start twoHitsScript)).2)
    = SearchAlbums "Sleep - Dopesmoker"
      :: GetAlbum "https://api.spotify.com/v1/albums/1" :: more.
Proof.
  assert (Hall : Forall (fun it => SearchAlbum.Artists it <> [])
                        [reissueHit; dopesmokerHit])
    by (repeat constructor; discriminate).
  destruct (resolver_takes_first_match_or_skips (env := scripted)
              (newSync EmptyString) dopesmoker "playlist" "2022" ∅
              (start twoHitsScript)
              {| SpotifySearchResponse.Items := [reissueHit; dopesmokerHit] |}
              emptyScript "Sleep" "Dopesmoker" [] eq_refl eq_refl Hall)
    as (delta & Ht & Hm).
  change (List.find _ _) with (Some dopesmokerHit) in Hm.
  destruct Hm as [_ Hm].
  destruct (Hm ltac:(discriminate) eq_refl) as (more & Hreq).
  exists more. rewrite Ht. exact Hreq.
Defined.




(** ** Titles built and split again *)

Lemma HasPrefix_append s sep tail :
  HasPrefix s sep = true -> HasPrefix (s +:+ tail) sep = true.
Proof.
  revert s. induction sep as [|p sep IH]; intros s.
  - intros _. by destruct (s +:+ tail).
  - destruct s as [|c s]; simpl; [done|]. rewrite ?append_cons. simpl.
    intros [Hc Hs]%andb_prop. rewrite Hc. simpl. by apply IH.
Qed.

Lemma HasPrefix_self sep post : HasPrefix (sep +:+ post) sep = true.
Proof.
  induction sep as [|p sep IH]; [by destruct (EmptyString +:+ post)|].
  rewrite ?append_cons. simpl.
  rewrite IH. by rewrite (proj2 (Ascii.eqb_eq p p) eq_refl).
Qed.

Lemma HasPrefix_decompose s sep :
  HasPrefix s sep = true -> exists post, s = sep +:+ post.
Proof.
  revert s. induction sep as [|p sep IH]; intros s.
  - intros _. exists s. by rewrite append_empty_l.
  - destruct s as [|c s]; simpl; [done|].
    intros [Hc Hs]%andb_prop. apply Ascii.eqb_eq in Hc as ->.
    destruct (IH s Hs) as [post ->]. exists post. by rewrite append_cons.
Qed.

Lemma HasPrefix_length s sep :
  HasPrefix s sep = true -> (String.length sep <= String.length s)%nat.
Proof.
  intros [post ->]%HasPrefix_decompose. rewrite length_append. lia.
Qed.

Lemma HasPrefix_append_long s sep tail :
  (String.length sep <= String.length s)%nat ->
  HasPrefix (s +:+ tail) sep = HasPrefix s sep.
Proof.
  revert s. induction sep as [|p sep IH]; intros s.
  - intros _. destruct (s +:+ tail); by destruct s.
  - destruct s as [|c s]; simpl; [lia|]. intros Hlen.
    rewrite ?append_cons. simpl. rewrite IH by lia. done.
Qed.

Lemma Contains_length s sep :
  Contains s sep = true -> (String.length sep <= String.length s)%nat.
Proof.
  induction s as [|c s IH]; simpl.
  - rewrite orb_false_r. apply HasPrefix_length.
  - intros [H|H]%orb_prop; [by apply HasPrefix_length in H|].
    specialize (IH H). lia.
Qed.

(** Passing over the rest of a separator that has just been recognised. *)
Lemma splitFrom_skip sep cur (over tail : string) :
  splitFrom sep (String.length over) cur (over +:+ tail)
  = splitFrom sep 0 cur tail.
Proof.
  induction over as [|c over IH].
  - by rewrite append_empty_l.
  - rewrite append_cons. exact IH.
Qed.

Lemma splitFrom_at_separator sep cur post :
  sep <> EmptyString ->
  splitFrom sep 0 cur (sep +:+ post) = cur :: splitFrom sep 0 EmptyString post.
Proof.
  intros Hsep. pose proof (HasPrefix_self sep post) as Hp.
  destruct sep as [|p sep]; [done|].
  rewrite append_cons in Hp |- *. cbn [splitFrom]. rewrite Hp.
  cbn [String.length]. rewrite Nat.sub_succ, Nat.sub_0_r.
  by rewrite splitFrom_skip.
Qed.

(** The first separator of a string that has one: the field before it
    and the scan of what follows, whatever is appended to the string. *)
Lemma splitFrom_first sep s :
  sep <> EmptyString -> Contains s sep = true ->
  exists pre post,
    s = pre +:+ sep +:+ post
    /\ forall cur tail,
         splitFrom sep 0 cur (s +:+ tail)
         = (cur +:+ pre) :: splitFrom sep 0 EmptyString (post +:+ tail).
Proof.
  intros Hsep. induction s as [|c s IH]; intros Hc; cbn [Contains] in Hc.
  - rewrite orb_false_r in Hc. destruct sep; done.
  - destruct (HasPrefix (String c s) sep) eqn:Hp; cbn [orb] in Hc.
    + destruct (HasPrefix_decompose _ _ Hp) as [post Hpost].
      exists EmptyString, post. split; [by rewrite append_empty_l|].
      intros cur tail. rewrite Hpost, append_assoc, append_nil_r.
      by apply splitFrom_at_separator.
    + destruct (IH Hc) as (pre & post & Hs & Hsplit).
      exists (String c pre), post. split; [by rewrite append_cons, <- Hs|].
      intros cur tail. rewrite ?append_cons. cbn [splitFrom].
      rewrite <- append_cons, HasPrefix_append_long, Hp.
      * rewrite Hsplit. by rewrite append_assoc, append_cons, append_empty_l.
      * apply Contains_length in Hc. simpl. lia.
Qed.

(** No separator starts inside [artist] when [artist] has no [" -"]. *)
Lemma splitFrom_artist artist cur tail :
  Contains artist " -" = false ->
  splitFrom " - " 0 cur (artist +:+ " - " +:+ tail)
  = (cur +:+ artist) :: splitFrom " - " 0 EmptyString tail.
Proof.
  revert cur. induction artist as [|c artist IH]; intros cur.
  - intros _. rewrite append_empty_l, append_nil_r.
    by rewrite splitFrom_at_separator.
  - intros H. cbn [Contains] in H. apply orb_false_elim in H as [Hp Hc].
    rewrite append_cons. cbn [splitFrom].
    assert (HasPrefix (String c (artist +:+ " - " +:+ tail)) " - " = false) as ->.
    { cbn [HasPrefix] in Hp |- *. destruct (Ascii.eqb c " "); [|done].
      cbn [andb] in *. destruct artist as [|d artist].
      - by rewrite append_empty_l.
      - rewrite append_cons. cbn [HasPrefix] in *.
        destruct (Ascii.eqb d "-"); [|done].
        cbn [andb] in Hp. by rewrite HasPrefix_empty in Hp. }
    rewrite IH by done. by rewrite append_assoc, append_cons, append_empty_l.
Qed.

(** An empty field arises from a trailing comma. *)
Lemma splitFrom_trailing_comma flag cur :
  EmptyString ∈ splitFrom "," 0 cur (flag +:+ ",").
Proof.
  revert cur. induction flag as [|c flag IH]; intros cur.
  - rewrite append_empty_l. simpl. set_solver.
  - rewrite ?append_cons. cbn [splitFrom].
    destruct (HasPrefix _ ","); [right|]; apply IH.
Qed.

(** The field before the first separator of [s +:+ sep +:+ tail] is cut
    out of [s]. *)
Lemma splitFrom_first_field sep cur s tail :
  sep <> EmptyString ->
  exists field s' rest,
    s = field +:+ s'
    /\ splitFrom sep 0 cur (s +:+ sep +:+ tail) = (cur +:+ field) :: rest.
Proof.
  intros Hsep. revert cur. induction s as [|c s IH]; intros cur.
  - exists EmptyString, EmptyString, (splitFrom sep 0 EmptyString tail).
    split; [done|]. rewrite append_empty_l, append_nil_r.
    by apply splitFrom_at_separator.
  - rewrite append_cons. cbn [splitFrom].
    destruct (HasPrefix _ sep).
    + exists EmptyString, (String c s). eexists. split; [done|].
      by rewrite append_nil_r.
    + destruct (IH (cur +:+ String c EmptyString)) as (field & s' & rest & -> & ->).
      exists (String c field), s', rest. split; [done|].
      by rewrite append_assoc, append_cons, append_empty_l.
Qed.

(** X1: the title [addLatestAlbumFromBand] builds from a band name and an
    album name is split back by [addAlbumToSpotifyPlaylist] into that band
    name followed by the fields of the album name, provided the band name
    has no [" -"] in it; an album name without [" - "] comes back whole. *)
Theorem latest_album_title_splits_back (artist latestAlbum : string) :
  Contains artist " -" = false ->
  Split (Album.Title (latestAlbumOf artist latestAlbum)) " - "
  = artist :: Split latestAlbum " - "
  /\ (Contains latestAlbum " - " = false ->
      Split (Album.Title (latestAlbumOf artist latestAlbum)) " - "
      = [artist; latestAlbum]).
Proof.
  intros Hartist.
  assert (E : Split (Album.Title (latestAlbumOf artist latestAlbum)) " - "
              = artist :: Split latestAlbum " - ").
  { unfold latestAlbumOf, Split. cbn [Album.Title].
    by rewrite splitFrom_artist, append_empty_l. }
  split; [exact E|]. intros Halbum. by rewrite E, Split_no_separator.
Qed.

(** X2: when the band name itself holds [" - "], the two names that
    [addAlbumToSpotifyPlaylist] reads from the title built by
    [addLatestAlbumFromBand] are both cut out of the band name: the album
    name takes no part in the comparison with the search results. *)
Theorem band_name_with_separator_hides_album (artist latestAlbum : string) :
  Contains artist " - " = true ->
  exists artistName albumName rest tail,
    Split (Album.Title (latestAlbumOf artist latestAlbum)) " - "
    = artistName :: albumName :: rest
    /\ artist = artistName +:+ " - " +:+ albumName +:+ tail.
Proof.
  intros Hartist.
  destruct (splitFrom_first " - " artist) as (pre & post & Hsplit & Hscan);
    [done..|].
  destruct (splitFrom_first_field " - " EmptyString post latestAlbum)
    as (field & tail & rest & Hpost & Hfield); [done|].
  exists pre, field, rest, tail. split.
  - unfold latestAlbumOf, Split. cbn [Album.Title].
    by rewrite Hscan, Hfield, !append_empty_l.
  - by rewrite Hsplit, Hpost.
Qed.

(** ** What the discovery loop forwards *)

Section Acceptance.
Context {env : Env}.
Variable s : SpotifyPlaylistSync.t.
Variables style year : string.

Lemma findExcluded_none styles excluded :
  findExcluded styles excluded = None ->
  forall tag exc, tag ∈ styles -> exc ∈ excluded -> Contains tag exc = false.
Proof.
  induction styles as [|t styles IH]; simpl.
  - intros _ tag exc Htag. by apply elem_of_nil in Htag.
  - destruct (List.find _ excluded) eqn:E; [done|].
    intros Hnone tag exc [->|Htag]%elem_of_cons Hexc.
    + apply (List.find_none _ _ E). by apply list_elem_of_In.
    + by apply IH.
Qed.

Lemma isReissueOrRemaster_false format :
  isReissueOrRemaster format = false ->
  ("Reissue" ∉ format) /\ ("Remastered" ∉ format).
Proof.
  unfold isReissueOrRemaster. intros H.
  apply not_true_iff_false in H. rewrite existsb_exists in H.
  split; intros Hin%list_elem_of_In; apply H; eexists; (split; [exact Hin|done]).
Qed.

Lemma always_after {A} (P : Event -> Prop) d1 (m : M A) :
  Forall P d1 -> always P m ->
  post m (fun _ d2 => Forall P (d1 ++ d2)).
Proof.
  intros Hd1 Hm. eapply post_mono; [exact Hm|].
  intros r d2 Hd2. by apply Forall_app.
Qed.

Lemma always_mono {A} (P P' : Event -> Prop) (m : M A) :
  (forall e, P e -> P' e) -> always P m -> always P' m.
Proof.
  intros HP Hm. eapply post_mono; [exact Hm|].
  intros r d Hd. exact (Forall_impl _ _ _ Hd HP).
Qed.

Lemma sendsFrom_mono (R R' : DiscogsSearchResult.t -> Prop) e :
  (forall result, R result -> R' result) -> sendsFrom R e -> sendsFrom R' e.
Proof. intros HR. destruct e; simpl; [done..|]. intros (result & ? & ?). eauto. Qed.

(** The year [getMasterReleaseYear] returns without an error is the year
    of a master the catalog serves at the URL with the token. *)
Lemma getMasterReleaseYear_served R masterURL :
  post (getMasterReleaseYear masterURL)
       (fun r d =>
          Forall (sendsFrom R) d
          /\ forall masterYear, r = Done (masterYear, None) ->
               exists w masterResponse w',
                 serveDiscogsMaster (masterURL +:+ "?token=" +:+ discogsToken) w
                 = (Success masterResponse, w')
                 /\ Itoa (DiscogsMasterResponse.Year masterResponse) = masterYear).
Proof.
  unfold getMasterReleaseYear. cbv zeta.
  destruct (urlParseError _); [by apply post_ret|].
  apply (post_bind _ _
           (fun r d => Forall (sendsFrom R) d
                       /\ forall a, r = Done (inl a) ->
                            exists w w',
                              serveDiscogsMaster
                                (masterURL +:+ "?token=" +:+ discogsToken) w
                              = (Success a, w'))).
  - apply post_doRequest_served. intros r Hr. split; [by repeat constructor|done].
  - intros r d1 [Hd1 Hr]. apply post_emit_then.
    destruct r as [masterResponse|e]; apply post_ret.
    + split; [apply Forall_app; split; [done|by repeat constructor]|].
      intros masterYear [= <-].
      destruct (Hr masterResponse eq_refl) as (w & w' & Hw). eauto.
    + split; [apply Forall_app; split; [done|by repeat constructor]|done].
  - by intros h d1 [Hd1 _].
Qed.

Lemma always_forwardAlbum (R : DiscogsSearchResult.t -> Prop) result albumsSeen :
  R result -> always (sendsFrom R) (forwardAlbum result albumsSeen).
Proof.
  intros HR. unfold forwardAlbum. cbv zeta. destruct (negb _).
  - apply always_bind; [|intros _; apply always_ret].
    apply always_emit. simpl. eauto.
  - apply always_ret.
Qed.

Lemma handleResult_sends_accepted result albumsSeen :
  always (sendsFrom (fun r => r = result /\ accepted s style year r))
         (handleResult s style year result albumsSeen).
Proof.
  unfold handleResult. cbv zeta.
  destruct (missesOnlyStyle _ _) eqn:E1; [always_steps; exact I|].
  destruct (missesFirstTwoStyles _ _) eqn:E2; [always_steps; exact I|].
  destruct (findExcluded _ _) eqn:E3; [always_steps; exact I|].
  destruct (_ <? 10) eqn:E4; [always_steps; exact I|].
  destruct (isReissueOrRemaster _) eqn:E5; [always_steps; exact I|].
  assert (Hrest :
    (DiscogsSearchResult.MasterURL result = EmptyString
     \/ exists w masterResponse w',
          serveDiscogsMaster
            (DiscogsSearchResult.MasterURL result +:+ "?token=" +:+ discogsToken) w
          = (Success masterResponse, w')
          /\ Itoa (DiscogsMasterResponse.Year masterResponse) = year) ->
    accepted s style year result).
  { intros Hmaster. unfold accepted, passesStyle. rewrite E1, E2.
    apply isReissueOrRemaster_false in E5 as [? ?].
    split_and!; try done.
    - by apply findExcluded_none.
    - by apply Z.ltb_ge in E4. }
  destruct (negb (String.eqb _ _)) eqn:E6.
  - apply (post_bind _ _ _ _
             (getMasterReleaseYear_served
                (fun r => r = result /\ accepted s style year r)
                (DiscogsSearchResult.MasterURL result))).
    + intros [masterYear [err|]] d1 [Hd1 Hyear];
        (apply always_after; [done|]); [apply always_ret|].
      destruct (negb (String.eqb masterYear year)) eqn:E7;
        [always_steps; exact I|].
      apply always_forwardAlbum. split; [done|]. apply Hrest. right.
      apply negb_false_iff, String.eqb_eq in E7 as <-. by apply Hyear.
    + by intros h d1 [Hd1 _].
  - apply always_forwardAlbum. split; [done|]. apply Hrest. left.
    by apply negb_false_iff, String.eqb_eq in E6.
Qed.

Lemma rangeResults_sends_accepted results albumsSeen :
  always (sendsFrom (fun r => r ∈ results /\ accepted s style year r))
         (rangeResults s style year results albumsSeen).
Proof.
  revert albumsSeen. induction results as [|result rest IH]; intros albumsSeen;
    simpl; [apply always_ret|].
  apply always_bind.
  - eapply always_mono; [|apply handleResult_sends_accepted].
    intros e. apply sendsFrom_mono. intros r [-> ?]. split; [left|done].
  - intros [[| |err] albumsSeen']; [|apply always_ret..].
    eapply always_mono; [|apply IH].
    intros e. apply sendsFrom_mono. intros r [? ?]. split; [by right|done].
Qed.

Lemma searchPages_sends_accepted fuel searchUrl albumsSeen :
  always (sendsFrom (fun r => servedRelease r /\ accepted s style year r))
         (searchPages s fuel style year searchUrl albumsSeen).
Proof.
  revert searchUrl albumsSeen.
  induction fuel as [|fuel IH]; intros searchUrl albumsSeen; simpl.
  - apply always_halt.
  - apply always_bind; [by apply always_print | intros _].
    destruct (urlParseError searchUrl); [apply always_ret|].
    apply (post_bind _ _
             (fun r d => Forall (sendsFrom (fun r => servedRelease r
                                            /\ accepted s style year r)) d
                         /\ forall a, r = Done (inl a) ->
                              exists w w', serveDiscogsSearch searchUrl w
                                           = (Success a, w'))).
    + apply post_doRequest_served. intros r Hr. split; [by repeat constructor|done].
    + intros r d1 [Hd1 Hr]. apply always_after; [done|].
      apply always_bind; [by apply always_sleep | intros _].
      destruct r as [discogsResponse|e]; [|apply always_ret].
      destruct (Hr discogsResponse eq_refl) as (w & w' & Hw).
      apply always_bind.
      * eapply always_mono; [|apply rangeResults_sends_accepted].
        intros e. apply sendsFrom_mono. intros r [Hin ?]. split; [|done].
        by exists searchUrl, w, discogsResponse, w'.
      * intros [[err|] albumsSeen']; [apply always_ret|].
        destruct (String.eqb _ _); [apply always_ret | apply IH].
    + by intros h d1 [Hd1 _].
Qed.

Lemma sentTitles_sendsFrom R d title :
  Forall (sendsFrom R) d -> title ∈ sentTitles d ->
  exists result, R result /\ title = normalizeTitle (DiscogsSearchResult.Title result).
Proof.
  intros Hd Hin. unfold sentTitles in Hin.
  apply list_elem_of_omap in Hin as (e & He & Hsome).
  rewrite Forall_forall in Hd. specialize (Hd e He).
  destruct e; try done. simpl in *. by injection Hsome as <-.
Qed.

(** X3: whatever the catalog answers and however the run ends, every title
    the discovery run sends on the channel is the normalised title of a
    release that a catalog page held and that got through every test of
    the loop body: the style test, no tag with an excluded style, at least
    ten copies, neither a reissue nor a remaster, and, with a master URL,
    a master served with the year searched for. *)
Theorem forwarded_titles_come_from_accepted_releases
    (fuel : nat) (st : State) (title : string) :
  title ∈ sentTitles (trace (searchDiscogsForAlbums s fuel style year st).2) ->
  title ∈ sentTitles (trace st)
  \/ exists result,
       servedRelease result /\ accepted s style year result
       /\ title = normalizeTitle (DiscogsSearchResult.Title result).
Proof.
  unfold searchDiscogsForAlbums. cbv zeta.
  destruct (searchPages_sends_accepted fuel
              (discogsSearchURL +:+ "?type=release&style=" +:+ style
               +:+ "&format=Album&year=" +:+ year
               +:+ "&token=" +:+ discogsToken +:+ "&per_page=100") ∅ st)
    as (d & -> & Hd).
  rewrite sentTitles_app. intros [?|Hin]%elem_of_app; [by left|right].
  destruct (sentTitles_sendsFrom _ _ _ Hd Hin) as (result & [? ?] & ?). eauto.
Qed.

(** X4: an empty field in the exclusion list, as a trailing comma in the
    flag value leaves one, is contained in every style tag.  With such a
    list every title the run sends comes from a release that has no style
    tag at all. *)
Theorem empty_exclusion_field_drops_styled_releases :
  (forall flag,
      EmptyString ∈ SpotifyPlaylistSync.excludedStyles (newSync (flag +:+ ",")))
  /\ (forall (fuel : nat) (st : State) (title : string),
        EmptyString ∈ SpotifyPlaylistSync.excludedStyles s ->
        title ∈ sentTitles (trace (searchDiscogsForAlbums s fuel style year st).2) ->
        title ∈ sentTitles (trace st)
        \/ exists result,
             servedRelease result /\ DiscogsSearchResult.Style result = []
             /\ title = normalizeTitle (DiscogsSearchResult.Title result)).
Proof.
  split.
  - intros flag. apply splitFrom_trailing_comma.
  - intros fuel st title Hempty. unfold searchDiscogsForAlbums. cbv zeta.
    destruct (searchPages_sends_accepted fuel
                (discogsSearchURL +:+ "?type=release&style=" +:+ style
                 +:+ "&format=Album&year=" +:+ year
                 +:+ "&token=" +:+ discogsToken +:+ "&per_page=100") ∅ st)
      as (d & -> & Hd).
    rewrite sentTitles_app. intros [?|Hin]%elem_of_app; [by left|right].
    destruct (sentTitles_sendsFrom _ _ _ Hd Hin)
      as (result & [? (_ & Hexc & _)] & ?).
    exists result. split_and!; [done| |done].
    destruct (DiscogsSearchResult.Style result) as [|tag tags]; [done|].
    specialize (Hexc tag EmptyString (list_elem_of_here _ _) Hempty).
    by rewrite Contains_empty in Hexc.
Qed.

End Acceptance.

(** ** The pace of the catalog requests *)

Section Pacing.
Context {env : Env}.

Lemma catalogView_app d1 d2 : catalogView (d1 ++ d2) = catalogView d1 ++ catalogView d2.
Proof. apply filter_app. Qed.

Lemma paced_app rqs1 rqs2 : paced (rqs1 ++ rqs2) = paced rqs1 ++ paced rqs2.
Proof. unfold paced. by rewrite fmap_app, concat_app. Qed.

Lemma pacedRun_app {A B} (a : A) (r : Result B) d1 d2 :
  pacedRun (Done a) d1 -> pacedRun r d2 -> pacedRun r (d1 ++ d2).
Proof.
  intros [rqs1 [H1|(rq & e & [=] & _)]] [rqs2 H2].
  exists (rqs1 ++ rqs2). rewrite catalogView_app, paced_app, H1.
  destruct H2 as [->|(rq & e & -> & ->)]; [by left|right].
  exists rq, e. by rewrite app_assoc.
Qed.

Lemma pacing_bind {A B} (m : M A) (k : A -> M B) :
  post m pacedRun -> (forall a, post (k a) pacedRun) -> post (bind m k) pacedRun.
Proof.
  intros Hm Hk. eapply post_bind; [exact Hm| |].
  - intros a d1 Hd1. eapply post_mono; [apply Hk|].
    intros r d2 Hd2. by eapply pacedRun_app.
  - intros h d1 [rqs Hd1]. exists rqs.
    destruct Hd1 as [?|(rq & e & [= ->] & ?)]; [by left|right; eauto].
Qed.

Lemma pacing_ret {A} (a : A) : post (ret a) pacedRun.
Proof. apply post_ret. exists []. by left. Qed.

Lemma pacing_halt {A} h : post (halt (A := A) h) pacedRun.
Proof. apply post_halt. exists []. by left. Qed.

Lemma pacing_emit e : isCatalogStep e = false -> post (emit e) pacedRun.
Proof.
  intros He. apply post_emit. exists []. left.
  unfold catalogView. rewrite filter_cons_False; [done|]. by rewrite He.
Qed.

Lemma pacing_print m : post (print m) pacedRun.
Proof. by apply pacing_emit. Qed.

Lemma pacing_v s m : post (v s m) pacedRun.
Proof.
  unfold v. destruct (SpotifyPlaylistSync.verbose s);
    [apply pacing_print | apply pacing_ret].
Qed.

Lemma pacing_index {A} (l : list A) i : post (index l i) pacedRun.
Proof.
  unfold index. destruct (l !! i); [apply pacing_ret | apply pacing_halt].
Qed.

(** A request, the sleep of one second, and what follows. *)
Lemma pacing_request {A B} rq (serve : World -> Reply A * World)
    (k : A + error -> M B) :
  isCatalogStep (EvRequest rq) = true ->
  (forall r, post (k r) pacedRun) ->
  post (r <- doRequest rq serve ;; sleep 1 ;; k r) pacedRun.
Proof.
  intros Hrq Hk st. unfold bind, doRequest, sleep, emit.
  destruct (serve (world st)) as [[e|e|a] w]; cbn [fst snd world trace].
  - exists [EvRequest rq]. split; [done|]. exists []. right. exists rq, e.
    split; [done|]. unfold catalogView. rewrite filter_cons_True by done. done.
  - destruct (Hk (inr e) {| world := w;
                            trace := (trace st ++ [EvRequest rq]) ++ [EvSleep 1] |})
      as (d & Hd & rqs & Hview).
    exists (EvRequest rq :: EvSleep 1 :: d). split.
    { rewrite Hd. cbn [trace]. by rewrite <- !app_assoc. }
    exists (rq :: rqs). unfold catalogView in *.
    rewrite filter_cons_True by done. rewrite filter_cons_True by done.
    destruct Hview as [->|(rq' & e' & -> & ->)]; [by left|right; eauto].
  - destruct (Hk (inl a) {| world := w;
                            trace := (trace st ++ [EvRequest rq]) ++ [EvSleep 1] |})
      as (d & Hd & rqs & Hview).
    exists (EvRequest rq :: EvSleep 1 :: d). split.
    { rewrite Hd. cbn [trace]. by rewrite <- !app_assoc. }
    exists (rq :: rqs). unfold catalogView in *.
    rewrite filter_cons_True by done. rewrite filter_cons_True by done.
    destruct Hview as [->|(rq' & e' & -> & ->)]; [by left|right; eauto].
Qed.

Lemma pacing_getMasterReleaseYear masterURL :
  post (getMasterReleaseYear masterURL) pacedRun.
Proof.
  unfold getMasterReleaseYear. cbv zeta.
  destruct (urlParseError _); [apply pacing_ret|].
  apply pacing_request; [done|]. intros [?|?]; apply pacing_ret.
Qed.

Lemma pacing_forwardAlbum result albumsSeen :
  post (forwardAlbum result albumsSeen) pacedRun.
Proof.
  unfold forwardAlbum. cbv zeta. destruct (negb _); [|apply pacing_ret].
  apply pacing_bind; [by apply pacing_emit | intros _; apply pacing_ret].
Qed.

Lemma pacing_handleResult s style year result albumsSeen :
  post (handleResult s style year result albumsSeen) pacedRun.
Proof.
  unfold handleResult. cbv zeta.
  repeat first
    [ apply pacing_ret | apply pacing_index | apply pacing_v
    | apply pacing_forwardAlbum | apply pacing_getMasterReleaseYear
    | apply pacing_bind; [| intros ?]
    | match goal with
      | |- post (if ?b then _ else _) _ => destruct b
      | |- post (match ?x with _ => _ end) _ => destruct x
      end ].
Qed.

Lemma pacing_rangeResults s style year results albumsSeen :
  post (rangeResults s style year results albumsSeen) pacedRun.
Proof.
  revert albumsSeen. induction results as [|result rest IH]; intros albumsSeen;
    simpl; [apply pacing_ret|].
  apply pacing_bind; [apply pacing_handleResult|].
  intros [[| |err] albumsSeen']; [apply IH | apply pacing_ret..].
Qed.

Lemma pacing_searchPages s fuel style year searchUrl albumsSeen :
  post (searchPages s fuel style year searchUrl albumsSeen) pacedRun.
Proof.
  revert searchUrl albumsSeen.
  induction fuel as [|fuel IH]; intros searchUrl albumsSeen; simpl.
  - apply pacing_halt.
  - apply pacing_bind; [apply pacing_print | intros _].
    destruct (urlParseError searchUrl); [apply pacing_ret|].
    apply pacing_request; [done|].
    intros [discogsResponse|e]; [|apply pacing_ret].
    apply pacing_bind; [apply pacing_rangeResults|].
    intros [[err|] albumsSeen']; [apply pacing_ret|].
    destruct (String.eqb _ _); [apply pacing_ret | apply IH].
Qed.

(** X5: in a discovery run every request to the catalog, for a page of
    the search or for a master release, is followed by a sleep of one
    second before anything else is asked of the catalog.  The one request
    that can go without its sleep is the last of a run that a transport
    failure ended. *)
Theorem catalog_requests_are_paced
    (s : SpotifyPlaylistSync.t) (fuel : nat) (style year : string) (st : State) :
  exists delta requests,
    trace (searchDiscogsForAlbums s fuel style year st).2 = trace st ++ delta
    /\ (catalogView delta = paced requests
        \/ exists rq e,
             (searchDiscogsForAlbums s fuel style year st).1 = Halted (LogFatal e)
             /\ catalogView delta = paced requests ++ [EvRequest rq]).
Proof.
  unfold searchDiscogsForAlbums. cbv zeta.
  destruct (pacing_searchPages s fuel style year
              (discogsSearchURL +:+ "?type=release&style=" +:+ style
               +:+ "&format=Album&year=" +:+ year
               +:+ "&token=" +:+ discogsToken +:+ "&per_page=100") ∅ st)
    as (d & Hd & rqs & Hview).
  by exists d, rqs.
Qed.

End Pacing.

(** ** The playlist snapshot *)

Section SnapshotFacts.
Context {env : Env}.
Variable servePlaylistTracks :
  string -> World -> Reply SpotifyPlaylistResponse.t * World.

Lemma fetchPlaylistPages_chain url w pages w' :
  pageChain servePlaylistTracks url w pages w' ->
  forall fuel tracks,
    (length pages <= fuel)%nat ->
    fetchPlaylistPages servePlaylistTracks fuel url tracks w
    = (Done (tracks ++ concat pages, None), w').
Proof.
  induction 1 as [url w items w' Hurl Hserve
                 |url w items next w1 pages w' Hurl Hnext Hserve _ IH];
    intros [|fuel] tracks Hfuel; simpl in Hfuel; try lia; simpl.
  - rewrite Hurl, Hserve. simpl. by rewrite app_nil_r.
  - rewrite Hurl, Hserve. simpl.
    apply String.eqb_neq in Hnext as ->.
    rewrite IH by lia. by rewrite <- app_assoc.
Qed.

Lemma fetchPlaylistPages_error fuel url tracks w collected e w' :
  fetchPlaylistPages servePlaylistTracks fuel url tracks w
  = (Done (collected, Some e), w') ->
  collected = [].
Proof.
  revert url tracks w. induction fuel as [|fuel IH]; intros url tracks w; simpl;
    [done|].
  destruct (urlParseError url); [by intros [= <- _ _]|].
  destruct (servePlaylistTracks url w) as [[e'|e'|playlistResponse] w1];
    [done | by intros [= <- _ _] |].
  destruct (String.eqb _ _); [done | apply IH].
Qed.

(** X6: when the playlist is served as a chain of pages, each naming the
    next and the last naming none, [getTracksInPlaylist] returns, given
    fuel for that many pages, the URIs of all pages in page order, with no
    error, and leaves the services in the state after the last page. *)
Theorem getTracksInPlaylist_collects_all_pages
    (fuel : nat) (playlistID : string) (w w' : World)
    (pages : list (list string)) :
  pageChain servePlaylistTracks
    ("https://api.spotify.com/v1/playlists/" +:+ playlistID
       +:+ "/tracks?limit=100") w pages w' ->
  (length pages <= fuel)%nat ->
  getTracksInPlaylist servePlaylistTracks fuel playlistID w
  = (Done (concat pages, None), w').
Proof.
  intros Hchain Hfuel. unfold getTracksInPlaylist.
  by rewrite (fetchPlaylistPages_chain _ _ _ _ Hchain fuel [] Hfuel).
Qed.

(** X7: [getTracksInPlaylist] never returns tracks together with an error:
    when a page cannot be had, the URIs of the pages read before it are
    given up and the caller gets no tracks at all. *)
Theorem getTracksInPlaylist_error_gives_no_tracks
    (fuel : nat) (playlistID : string) (w w' : World)
    (collected : list string) (e : error) :
  getTracksInPlaylist servePlaylistTracks fuel playlistID w
  = (Done (collected, Some e), w') ->
  collected = [].
Proof. apply fetchPlaylistPages_error. Qed.

End SnapshotFacts.

(** ** The requests of one attempt *)

Section Attempt.
Context {env : Env}.

Lemma requests_ret {A} (a : A) (R : list Request -> Prop) :
  R [] -> post (ret a) (fun _ d => R (requestsOf d)).
Proof. intros HR. by apply post_ret. Qed.

(** A step that only prints, and what follows. *)
Lemma requests_after_prints {A B} (m : M A) (k : A -> M B)
    (R : list Request -> Prop) :
  always isPrint m ->
  (forall a, post (k a) (fun _ d => R (requestsOf d))) ->
  R [] ->
  post (bind m k) (fun _ d => R (requestsOf d)).
Proof.
  intros Hm Hk HR. eapply post_bind; [exact Hm| |].
  - intros a d1 Hd1. eapply post_mono; [apply Hk|].
    intros r d2 Hd2. cbv beta in *.
    by rewrite requestsOf_app, (requestsOf_prints d1 Hd1).
  - intros h d1 Hd1. cbv beta in *. by rewrite (requestsOf_prints d1 Hd1).
Qed.

(** A request, and what follows when the service has answered. *)
Lemma requests_after_request {A B} rq (serve : World -> Reply A * World)
    (k : A + error -> M B) (R : list Request -> Prop) :
  (forall r,
      (forall a, r = inl a -> exists w w', serve w = (Success a, w')) ->
      post (k r) (fun _ d => R (rq :: requestsOf d))) ->
  R [rq] ->
  post (bind (doRequest rq serve) k) (fun _ d => R (requestsOf d)).
Proof.
  intros Hk HR.
  apply (post_bind _ _
           (fun r d => d = [EvRequest rq]
                       /\ forall a, r = Done (inl a) ->
                            exists w w', serve w = (Success a, w'))).
  - apply post_doRequest_served. auto.
  - intros r d1 [-> Hr]. apply Hk. intros a ->. by apply Hr.
  - by intros h d1 [-> _].
Qed.

Lemma prints_print m : always isPrint (print m).
Proof. apply always_print. by exists m. Qed.

Lemma addAlbum_attemptRequests s album playlistID year seen :
  post (addAlbumToSpotifyPlaylist s album playlistID year seen)
       (fun _ d => attemptRequests album playlistID seen (requestsOf d)).
Proof.
  set (search := SearchAlbums (Album.Title album)).
  assert (Hsearch : attemptRequests album playlistID seen [search]) by by left.
  unfold addAlbumToSpotifyPlaylist. cbv zeta.
  apply requests_after_request; [|done].
  intros [searchResponse|e] _; [|by apply (requests_ret _ (fun l => _ (_ :: l)))].
  destruct (SpotifySearchResponse.Items searchResponse) as [|it items].
  { apply (requests_after_prints _ _ (fun l => attemptRequests _ _ _ (search :: l)));
      [apply prints_print | | done].
    intros _. by apply (requests_ret _ (fun l => _ (_ :: l))). }
  apply (requests_after_prints _ _ (fun l => attemptRequests _ _ _ (search :: l)));
    [apply always_index | | done]. intros artistName.
  apply (requests_after_prints _ _ (fun l => attemptRequests _ _ _ (search :: l)));
    [apply always_index | | done]. intros albumName.
  apply (requests_after_prints _ _ (fun l => attemptRequests _ _ _ (search :: l)));
    [apply always_findAlbumUrl; intros m; by exists m | | done]. intros albumUrl.
  destruct (String.eqb albumUrl EmptyString).
  { apply (requests_after_prints _ _ (fun l => attemptRequests _ _ _ (search :: l)));
      [apply prints_print | | done].
    intros _. by apply (requests_ret _ (fun l => _ (_ :: l))). }
  apply (requests_after_prints _ _ (fun l => attemptRequests _ _ _ (search :: l)));
    [apply prints_print | | done]. intros _.
  destruct (urlParseError albumUrl);
    [by apply (requests_ret _ (fun l => _ (_ :: l)))|].
  assert (Halbum : attemptRequests album playlistID seen [search; GetAlbum albumUrl])
    by (right; left; eauto).
  apply (requests_after_request _ _ _
           (fun l => attemptRequests _ _ _ (search :: l))); [|done].
  intros [albumResponse|e] Hserved;
    [|by apply (requests_ret _ (fun l => _ (_ :: _ :: l)))].
  destruct (Hserved albumResponse eq_refl) as (w & w' & Hw).
  destruct (newTrackUris seen (SpotifyAlbumResponse.Tracks albumResponse))
    as [|uri uris] eqn:Hnew.
  { apply (requests_after_prints _ _
             (fun l => attemptRequests _ _ _ (search :: GetAlbum albumUrl :: l)));
      [apply prints_print | | done].
    intros _. by apply (requests_ret _ (fun l => _ (_ :: _ :: l))). }
  destruct (urlParseError (playlistTracksUrl playlistID));
    [by apply (requests_ret _ (fun l => _ (_ :: _ :: l)))|].
  assert (Hpost : attemptRequests album playlistID seen
                    [search; GetAlbum albumUrl;
                     PostPlaylistTracks (playlistTracksUrl playlistID) (uri :: uris)]).
  { right; right. exists albumUrl, w, albumResponse, w'. by rewrite Hnew. }
  apply (requests_after_request _ _ _
           (fun l => attemptRequests _ _ _ (search :: GetAlbum albumUrl :: l)));
    [|done].
  intros [[]|e] _; [|by apply (requests_ret _ (fun l => _ (_ :: _ :: _ :: l)))].
  apply (requests_after_prints _ _
           (fun l => attemptRequests _ _ _
                       (search :: GetAlbum albumUrl :: _ :: l)));
    [apply prints_print | | done].
  intros _. by apply (requests_ret _ (fun l => _ (_ :: _ :: _ :: l))).
Qed.

(** X8: one call of [addAlbumToSpotifyPlaylist] asks at most three things
    of the services, always in this order: the search for the title; the
    album at one URL; the append, to the playlist given, of the tracks of
    the album served that the seen map does not mark, of which there is at
    least one.  An attempt never appends before it has fetched the album,
    and never sends an empty append. *)
Theorem addAlbum_request_sequence
    (s : SpotifyPlaylistSync.t) (album : Album.t) (playlistID year : string)
    (seen : gmap string bool) (st : State) :
  exists delta,
    trace (addAlbumToSpotifyPlaylist s album playlistID year seen st).2
    = trace st ++ delta
    /\ attemptRequests album playlistID seen (requestsOf delta).
Proof. apply addAlbum_attemptRequests. Qed.

Lemma addAlbum_appendsTo s album playlistID year seen :
  always (appendsTo playlistID)
         (addAlbumToSpotifyPlaylist s album playlistID year seen).
Proof.
  unfold addAlbumToSpotifyPlaylist. cbv zeta.
  always_steps; try exact I; try (apply always_findAlbumUrl; intros; exact I).
  by split.
Qed.

Lemma retryAlbum_appendsTo s n album playlistID year seen :
  always (appendsTo playlistID) (retryAlbum s n album playlistID year seen).
Proof.
  induction n as [|n IH]; simpl; [apply always_ret|].
  apply always_bind; [apply addAlbum_appendsTo|].
  intros [e|]; [|apply always_ret].
  always_steps; try exact I. apply IH.
Qed.

(** X9: whatever albums the consumer receives and however the attempts
    end, every append it sends goes to the tracks URL of the playlist it
    was given and carries at least one URI. *)
Theorem consumer_appends_to_its_playlist
    (s : SpotifyPlaylistSync.t) (albums : list Album.t)
    (playlistID year : string) (seen : gmap string bool) (st : State) :
  exists delta,
    trace (consumeAlbums s albums playlistID year seen st).2 = trace st ++ delta
    /\ Forall (appendsTo playlistID) delta.
Proof.
  revert st. change (always (appendsTo playlistID)
                       (consumeAlbums s albums playlistID year seen)).
  induction albums as [|album rest IH]; simpl; [apply always_ret|].
  apply always_bind;
    [exact (retryAlbum_appendsTo s 3 album playlistID year seen)
    | intros _; apply IH].
Qed.

(** X10: with the seen map built from the playlist snapshot, the URIs an
    attempt puts in its append are the tracks of the album that the
    snapshot does not hold: all of them, in the order of the album, a
    track listed twice on the album kept twice. *)
Theorem new_tracks_are_the_album_minus_snapshot
    (snapshot tracks : list string) :
  newTrackUris (tracksAlreadySeen snapshot) tracks
  = filter (fun uri => uri ∉ snapshot) tracks.
Proof.
  unfold newTrackUris. induction tracks as [|uri tracks IH]; [done|].
  rewrite !filter_cons, IH.
  destruct (mapGet (tracksAlreadySeen snapshot) uri) eqn:E.
  - apply mapGet_tracksAlreadySeen in E.
    rewrite decide_False by done. by rewrite decide_False by (by intros ?).
  - rewrite decide_True by done. rewrite decide_True; [done|].
    intros Hin%mapGet_tracksAlreadySeen. congruence.
Qed.

End Attempt.

Section ArtistlessResult.
Context {env : Env}.

(** X14: the search loop reads the first artist of every result that gets
    past the year test.  A result without artists that comes before any
    match stops the attempt with an index out of range, after the skip
    lines of the results before it; no error is returned that the retry
    loop could act on. *)
Theorem artistless_search_result_panics
    (s : SpotifyPlaylistSync.t) (year artistName albumName : string)
    (before : list SearchAlbum.t) (it : SearchAlbum.t)
    (rest : list SearchAlbum.t) (st : State) :
  Forall (fun x => SearchAlbum.Artists x <> []
                   /\ matchesCandidate year artistName albumName x = false)
         before ->
  SearchAlbum.Artists it = [] ->
  year = EmptyString \/ HasPrefix (SearchAlbum.ReleaseDate it) year = true ->
  exists skips,
    Forall isPrint skips
    /\ findAlbumUrl s year artistName albumName (before ++ it :: rest) st
       = (Halted IndexOutOfRange,
          {| world := world st; trace := trace st ++ skips |}).
Proof.
  intros Hbefore Hartists Hyear. revert st.
  induction Hbefore as [|x before [Hx Hno] _ IH]; intros st.
  - exists []. split; [constructor|]. cbn [app findAlbumUrl].
    assert (negb (String.eqb year EmptyString)
            && negb (HasPrefix (SearchAlbum.ReleaseDate it) year) = false) as ->.
    { destruct Hyear as [->| ->]; [done|]. apply andb_false_r. }
    rewrite Hartists. unfold bind, index, halt. simpl.
    rewrite app_nil_r. by destruct st.
  - cbn [app findAlbumUrl]. unfold matchesCandidate in Hno.
    destruct (String.eqb year EmptyString) eqn:Ey; simpl in *.
    + destruct (SearchAlbum.Artists x) as [|a0 more] eqn:Ea; [done|]. simpl in *.
      unfold bind at 1, index, ret. simpl. rewrite Hno. apply IH.
    + destruct (HasPrefix (SearchAlbum.ReleaseDate x) year) eqn:Ep; simpl in *.
      * destruct (SearchAlbum.Artists x) as [|a0 more] eqn:Ea; [done|]. simpl in *.
        unfold bind at 1, index, ret. simpl. rewrite Hno. apply IH.
      * unfold bind at 1, v, print, emit, ret.
        destruct (SpotifyPlaylistSync.verbose s); simpl; [|apply IH].
        destruct (IH {| world := world st;
                        trace := trace st
                                 ++ [EvPrint (SkippingReleaseDate
                                                (SearchAlbum.Name x)
                                                (SearchAlbum.ReleaseDate x))] |})
          as (skips & Hs & ->).
        exists (EvPrint (SkippingReleaseDate (SearchAlbum.Name x)
                                             (SearchAlbum.ReleaseDate x)) :: skips).
        split; [constructor; [by eexists | done]|].
        simpl. by rewrite <- app_assoc.
Qed.

End ArtistlessResult.

(** ** The requests of the discovery run *)

Section Asks.
Context {env : Env}.
Variable s : SpotifyPlaylistSync.t.
Variables style year : string.

Lemma asksFor_mono (R R' : DiscogsSearchResult.t -> Prop) firstUrl e :
  (forall result, R result -> R' result) ->
  asksFor R firstUrl e -> asksFor R' firstUrl e.
Proof.
  intros HR. destruct e as [[]| | |]; simpl; try done.
  intros (result & ? & ?). eauto.
Qed.

Lemma handleResult_asksFor firstUrl result albumsSeen :
  always (asksFor (fun r => r = result) firstUrl)
         (handleResult s style year result albumsSeen).
Proof.
  unfold handleResult, getMasterReleaseYear, forwardAlbum. cbv zeta.
  always_steps; try exact I; try (by apply always_emit).
  simpl. exists result. split_and!; [done| |done].
  intros E. match goal with H : negb (String.eqb _ _) = true |- _ =>
    by rewrite E in H end.
Qed.

Lemma rangeResults_asksFor firstUrl results albumsSeen :
  always (asksFor (fun r => r ∈ results) firstUrl)
         (rangeResults s style year results albumsSeen).
Proof.
  revert albumsSeen. induction results as [|result rest IH]; intros albumsSeen;
    simpl; [apply always_ret|].
  apply always_bind.
  - eapply always_mono; [|apply handleResult_asksFor].
    intros e. apply asksFor_mono. intros r ->. left.
  - intros [[| |err] albumsSeen']; [|apply always_ret..].
    eapply always_mono; [|apply IH].
    intros e. apply asksFor_mono. intros r ?. by right.
Qed.

Lemma searchPages_asksFor fuel firstUrl searchUrl albumsSeen :
  asksFor servedRelease firstUrl (EvRequest (DiscogsSearch searchUrl)) ->
  always (asksFor servedRelease firstUrl)
         (searchPages s fuel style year searchUrl albumsSeen).
Proof.
  revert searchUrl albumsSeen.
  induction fuel as [|fuel IH]; intros searchUrl albumsSeen Hurl; simpl.
  - apply always_halt.
  - apply always_bind; [by apply always_print | intros _].
    destruct (urlParseError searchUrl); [apply always_ret|].
    apply (post_bind _ _
             (fun r d => Forall (asksFor servedRelease firstUrl) d
                         /\ forall a, r = Done (inl a) ->
                              exists w w', serveDiscogsSearch searchUrl w
                                           = (Success a, w'))).
    + apply post_doRequest_served. intros r Hr. split; [|done].
      constructor; [exact Hurl | constructor].
    + intros r d1 [Hd1 Hr]. apply always_after; [done|].
      apply always_bind; [by apply always_sleep | intros _].
      destruct r as [discogsResponse|e]; [|apply always_ret].
      destruct (Hr discogsResponse eq_refl) as (w & w' & Hw).
      apply always_bind.
      * eapply always_mono; [|apply rangeResults_asksFor].
        intros e. apply asksFor_mono. intros r Hin.
        by exists searchUrl, w, discogsResponse, w'.
      * intros [[err|] albumsSeen']; [apply always_ret|].
        destruct (String.eqb _ _) eqn:Enext; [apply always_ret|].
        apply IH. right. exists searchUrl, w, discogsResponse, w'.
        split_and!; [done..|]. by apply String.eqb_neq.
    + by intros h d1 [Hd1 _].
Qed.

(** X11: the discovery run asks nothing of the streaming service, and of
    the catalog only what it was given: the search at the URL built from
    the style, the year and the token, the search at the next-page link of
    a page the catalog served, and the master of a served release at its
    master URL with the token appended. *)
Theorem discovery_asks_only_for_given_urls (fuel : nat) (st : State) :
  exists delta,
    trace (searchDiscogsForAlbums s fuel style year st).2 = trace st ++ delta
    /\ Forall (asksFor servedRelease
                 (discogsSearchURL +:+ "?type=release&style=" +:+ style
                  +:+ "&format=Album&year=" +:+ year
                  +:+ "&token=" +:+ discogsToken +:+ "&per_page=100"))
              delta.
Proof.
  unfold searchDiscogsForAlbums. cbv zeta.
  apply searchPages_asksFor. by left.
Qed.

(** X12: a release with a single style tag that does not end with the
    style searched for and with no artist stops the run with an index out
    of range, verbose or not: the first artist is read for the skip line
    before it is known whether the line is printed.  The rest of the page
    is not looked at. *)
Theorem artistless_release_panics
    (result : DiscogsSearchResult.t) (rest : list DiscogsSearchResult.t)
    (albumsSeen : gmap string bool) (st : State) (tag : string) :
  DiscogsSearchResult.Style result = [tag] ->
  HasSuffix tag style = false ->
  DiscogsSearchResult.Artist result = [] ->
  rangeResults s style year (result :: rest) albumsSeen st
  = (Halted IndexOutOfRange, st).
Proof.
  intros Hstyle Htag Hartist. cbn [rangeResults].
  unfold handleResult, missesOnlyStyle, styleAt. cbv zeta.
  rewrite Hstyle. cbn [length Nat.eqb lookup list_lookup default from_option id].
  rewrite Htag, Hartist. reflexivity.
Qed.

(** X13: [isReissueOrRemaster] holds exactly of the format lists that have
    the entry ["Reissue"] or the entry ["Remastered"], spelled so. *)
Theorem isReissueOrRemaster_spec (format : list string) :
  isReissueOrRemaster format = true
  <-> "Reissue" ∈ format \/ "Remastered" ∈ format.
Proof.
  unfold isReissueOrRemaster. rewrite existsb_exists. split.
  - intros (f & Hin%list_elem_of_In & [->%String.eqb_eq| ->%String.eqb_eq]%orb_prop);
      auto.
  - intros [Hin|Hin]; apply list_elem_of_In in Hin; eexists; (split; [exact Hin|done]).
Qed.

End Asks.

(** ** Verbose mode off *)

Lemma quiet_v {env : Env} (P : Event -> Prop) s m :
  SpotifyPlaylistSync.verbose s = false -> always P (v s m).
Proof. intros Hoff. unfold v. rewrite Hoff. apply always_ret. Qed.

(** Opens a computation whose [s.v] calls print nothing. *)
Ltac quiet_steps :=
  repeat first
    [ apply always_ret | apply always_halt | apply always_index
    | apply quiet_v; assumption
    | apply always_print; reflexivity | apply always_sleep; exact I
    | apply always_doRequest; exact I | apply always_emit; exact I
    | apply always_bind; [| intros ?]
    | match goal with
      | |- always _ (if ?b then _ else _) => destruct b eqn:?
      | |- always _ (match ?x with _ => _ end) => destruct x eqn:?
      end ].

Section VerboseOff.
Context {env : Env}.
Variable s : SpotifyPlaylistSync.t.
Hypothesis Hoff : SpotifyPlaylistSync.verbose s = false.

Lemma handleResult_noSkipLine style year result albumsSeen :
  always noSkipLine (handleResult s style year result albumsSeen).
Proof.
  unfold handleResult, getMasterReleaseYear, forwardAlbum. cbv zeta.
  quiet_steps.
Qed.

Lemma rangeResults_noSkipLine style year results albumsSeen :
  always noSkipLine (rangeResults s style year results albumsSeen).
Proof.
  revert albumsSeen. induction results as [|result rest IH]; intros albumsSeen;
    simpl; [apply always_ret|].
  apply always_bind; [apply handleResult_noSkipLine|].
  intros [[| |err] albumsSeen']; [apply IH | apply always_ret..].
Qed.

Lemma searchPages_noSkipLine fuel style year searchUrl albumsSeen :
  always noSkipLine (searchPages s fuel style year searchUrl albumsSeen).
Proof.
  revert searchUrl albumsSeen.
  induction fuel as [|fuel IH]; intros searchUrl albumsSeen; simpl.
  - apply always_halt.
  - apply always_bind; [by apply always_print | intros _].
    destruct (urlParseError searchUrl); [apply always_ret|].
    apply always_bind; [by apply always_doRequest | intros r].
    apply always_bind; [by apply always_sleep | intros _].
    destruct r as [discogsResponse|e]; [|apply always_ret].
    apply always_bind; [apply rangeResults_noSkipLine|].
    intros [[err|] albumsSeen']; [apply always_ret|].
    destruct (String.eqb _ _); [apply always_ret | apply IH].
Qed.

Lemma findAlbumUrl_noSkipLine year artistName albumName items :
  always noSkipLine (findAlbumUrl s year artistName albumName items).
Proof.
  induction items as [|it items IH]; simpl; [apply always_ret|].
  quiet_steps; apply IH.
Qed.

Lemma addAlbum_noSkipLine album playlistID year seen :
  always noSkipLine (addAlbumToSpotifyPlaylist s album playlistID year seen).
Proof.
  unfold addAlbumToSpotifyPlaylist. cbv zeta.
  quiet_steps; apply findAlbumUrl_noSkipLine.
Qed.

Lemma retryAlbum_noSkipLine n album playlistID year seen :
  always noSkipLine (retryAlbum s n album playlistID year seen).
Proof.
  induction n as [|n IH]; simpl; [apply always_ret|].
  apply always_bind; [apply addAlbum_noSkipLine|].
  intros [e|]; [|apply always_ret].
  quiet_steps. apply IH.
Qed.

Lemma consumeAlbums_noSkipLine albums playlistID year seen :
  always noSkipLine (consumeAlbums s albums playlistID year seen).
Proof.
  induction albums as [|album rest IH]; simpl; [apply always_ret|].
  apply always_bind;
    [exact (retryAlbum_noSkipLine 3 album playlistID year seen)
    | intros _; apply IH].
Qed.

(** X15: with the verbose field off, as [NewSpotifyPlaylistSync] leaves it
    and nothing in the program changes it, none of the lines that go
    through [s.v] is printed: not by the discovery run, whose skip reasons
    stay unreported, and not by the consumer. *)
Theorem verbose_off_prints_no_skip_line :
  (forall (fuel : nat) (style year : string) (st : State),
      exists delta,
        trace (searchDiscogsForAlbums s fuel style year st).2 = trace st ++ delta
        /\ Forall noSkipLine delta)
  /\ (forall (albums : list Album.t) (playlistID year : string)
             (seen : gmap string bool) (st : State),
        exists delta,
          trace (consumeAlbums s albums playlistID year seen st).2
          = trace st ++ delta
          /\ Forall noSkipLine delta).
Proof.
  split.
  - intros fuel style year st. unfold searchDiscogsForAlbums. cbv zeta.
    apply searchPages_noSkipLine.
  - intros albums playlistID year seen st. apply consumeAlbums_noSkipLine.
Qed.

End VerboseOff.

(** ** Further theorems at concrete inputs *)

Lemma latest_album_title_splits_back_witness :
  Contains "Sleep" " -" = false
  /\ Split (Album.Title (latestAlbumOf "Sleep" "Dopesmoker")) " - "
     = ["Sleep"; "Dopesmoker"].
Proof.
  assert (H : Contains "Sleep" " -" = false) by reflexivity.
  split; [exact H|].
  exact (proj2 (latest_album_title_splits_back "Sleep" "Dopesmoker" H) eq_refl).
Defined.

Lemma band_name_with_separator_hides_album_witness :
  Contains "Mizmor - Thou" " - " = true
  /\ exists artistName albumName rest tail,
       Split (Album.Title (latestAlbumOf "Mizmor - Thou" "Myopia")) " - "
       = artistName :: albumName :: rest
       /\ "Mizmor - Thou" = artistName +:+ " - " +:+ albumName +:+ tail.
Proof.
  assert (H : Contains "Mizmor - Thou" " - " = true) by reflexivity.
  split; [exact H|].
  exact (band_name_with_separator_hides_album "Mizmor - Thou" "Myopia" H).
Defined.

Lemma forwarded_titles_come_from_accepted_releases_witness :
  "Conan - Evidence"
    ∈ sentTitles (trace (searchDiscogsForAlbums (env := scripted)
                           (newSync "Sludge") 3 "Doom Metal" "2022"
                           (start (onePage [release "Conan - Evidence (2)" 20
                                              ["Doom Metal"]]))).2)
  /\ ("Conan - Evidence"
        ∈ sentTitles (trace (start (onePage [release "Conan - Evidence (2)" 20
                                               ["Doom Metal"]])))
      \/ exists result,
           servedRelease (env := scripted) result
           /\ accepted (env := scripted) (newSync "Sludge") "Doom Metal" "2022" result
           /\ "Conan - Evidence" = normalizeTitle (DiscogsSearchResult.Title result)).
Proof.
  assert (H : "Conan - Evidence"
                ∈ sentTitles (trace (searchDiscogsForAlbums (env := scripted)
                           (newSync "Sludge") 3 "Doom Metal" "2022"
                           (start (onePage [release "Conan - Evidence (2)" 20
                                              ["Doom Metal"]]))).2)).
  { assert (E : sentTitles (trace (searchDiscogsForAlbums (env := scripted)
                           (newSync "Sludge") 3 "Doom Metal" "2022"
                           (start (onePage [release "Conan - Evidence (2)" 20
                                              ["Doom Metal"]]))).2)
                = ["Conan - Evidence"]) by (vm_compute; reflexivity).
    rewrite E. apply list_elem_of_here. }
  split; [exact H|].
  exact (forwarded_titles_come_from_accepted_releases (env := scripted)
           (newSync "Sludge") "Doom Metal" "2022" 3
           (start (onePage [release "Conan - Evidence (2)" 20 ["Doom Metal"]]))
           "Conan - Evidence" H).
Defined.

Lemma empty_exclusion_field_drops_styled_releases_witness :
  (EmptyString ∈ SpotifyPlaylistSync.excludedStyles (newSync "Sludge,")
   /\ "Conan - Evidence"
        ∈ sentTitles (trace (searchDiscogsForAlbums (env := scripted)
                               (newSync "Sludge,") 3 "Doom Metal" "2022"
                               (start (onePage [release "Conan - Evidence" 20 []]))).2))
  /\ ("Conan - Evidence"
        ∈ sentTitles (trace (start (onePage [release "Conan - Evidence" 20 []])))
      \/ exists result,
           servedRelease (env := scripted) result
           /\ DiscogsSearchResult.Style result = []
           /\ "Conan - Evidence" = normalizeTitle (DiscogsSearchResult.Title result)).
Proof.
  assert (Hempty : EmptyString
                     ∈ SpotifyPlaylistSync.excludedStyles (newSync "Sludge,")).
  { change (EmptyString ∈ ["Sludge"; EmptyString]). apply list_elem_of_further, list_elem_of_here. }
  assert (H : "Conan - Evidence"
                ∈ sentTitles (trace (searchDiscogsForAlbums (env := scripted)
                               (newSync "Sludge,") 3 "Doom Metal" "2022"
                               (start (onePage [release "Conan - Evidence" 20 []]))).2)).
  { assert (E : sentTitles (trace (searchDiscogsForAlbums (env := scripted)
                               (newSync "Sludge,") 3 "Doom Metal" "2022"
                               (start (onePage [release "Conan - Evidence" 20 []]))).2)
                = ["Conan - Evidence"]) by (vm_compute; reflexivity).
    rewrite E. apply list_elem_of_here. }
  split; [by split|].
  exact (proj2 (empty_exclusion_field_drops_styled_releases (env := scripted)
                  (newSync "Sludge,") "Doom Metal" "2022")
           3%nat (start (onePage [release "Conan - Evidence" 20 []]))
           "Conan - Evidence" Hempty H).
Defined.

Lemma getTracksInPlaylist_collects_all_pages_witness :
  pageChain (env := scripted) twoPagePlaylist
    ("https://api.spotify.com/v1/playlists/" +:+ "playlist" +:+ "/tracks?limit=100")
    emptyScript
    [["spotify:track:a"; "spotify:track:b"]; ["spotify:track:c"]]
    emptyScript
  /\ getTracksInPlaylist (env := scripted) twoPagePlaylist 5 "playlist" emptyScript
     = (Done (["spotify:track:a"; "spotify:track:b"; "spotify:track:c"], None),
        emptyScript).
Proof.
  assert (H : pageChain (env := scripted) twoPagePlaylist
                ("https://api.spotify.com/v1/playlists/" +:+ "playlist"
                   +:+ "/tracks?limit=100")
                emptyScript
                [["spotify:track:a"; "spotify:track:b"]; ["spotify:track:c"]]
                emptyScript).
  { apply (chain_next (env := scripted) twoPagePlaylist _ _ _ "page2" emptyScript);
      [reflexivity | discriminate | reflexivity |].
    apply chain_last; reflexivity. }
  split; [exact H|].
  apply (getTracksInPlaylist_collects_all_pages (env := scripted) twoPagePlaylist
           5 "playlist" emptyScript emptyScript _ H).
  simpl. lia.
Defined.

Lemma getTracksInPlaylist_error_gives_no_tracks_witness :
  getTracksInPlaylist (env := scripted) twoPagePlaylist 5 "broken" emptyScript
  = (Done ([], Some "not found"), emptyScript)
  /\ @nil string = [].
Proof.
  assert (H : getTracksInPlaylist (env := scripted) twoPagePlaylist 5 "broken"
                emptyScript
              = (Done ([], Some "not found"), emptyScript)) by reflexivity.
  split; [exact H|].
  exact (getTracksInPlaylist_error_gives_no_tracks (env := scripted)
           twoPagePlaylist 5 "broken" emptyScript emptyScript [] "not found" H).
Defined.

Lemma artistless_release_panics_witness :
  (DiscogsSearchResult.Style artistlessRelease = ["Sludge Metal"]
   /\ HasSuffix "Sludge Metal" "Doom Metal" = false
   /\ DiscogsSearchResult.Artist artistlessRelease = [])
  /\ rangeResults (env := scripted) (newSync "Sludge") "Doom Metal" "2022"
       [artistlessRelease; release "Conan - Evidence" 20 ["Doom Metal"]]
       ∅ (start emptyScript)
     = (Halted IndexOutOfRange, start emptyScript).
Proof.
  split; [by split_and!|].
  exact (artistless_release_panics (env := scripted) (newSync "Sludge")
           "Doom Metal" "2022" artistlessRelease
           [release "Conan - Evidence" 20 ["Doom Metal"]] ∅ (start emptyScript)
           "Sludge Metal" eq_refl eq_refl eq_refl).
Defined.

Lemma artistless_search_result_panics_witness :
  exists skips,
    Forall isPrint skips
    /\ findAlbumUrl (env := scripted) (newSync EmptyString) "2022" "Sleep" "Dopesmoker"
         ([reissueHit] ++ artistlessHit :: [dopesmokerHit]) (start emptyScript)
       = (Halted IndexOutOfRange,
          @Build_State scripted (world (start emptyScript))
            (trace (start emptyScript) ++ skips)).
Proof.
  apply (artistless_search_result_panics (env := scripted) (newSync EmptyString)
           "2022" "Sleep" "Dopesmoker" [reissueHit] artistlessHit [dopesmokerHit]
           (start emptyScript)).
  - constructor; [|constructor]. split; [discriminate | reflexivity].
  - reflexivity.
  - right. reflexivity.
Defined.

Lemma verbose_off_prints_no_skip_line_witness :
  SpotifyPlaylistSync.verbose (newSync "Sludge") = false
  /\ exists delta,
       trace (searchDiscogsForAlbums (env := scripted) (newSync "Sludge") 3
                "Doom Metal" "2022"
                (start (onePage [release "Conan - Evidence (2)" 20
                                   ["Sludge Metal"]]))).2
       = trace (start (onePage [release "Conan - Evidence (2)" 20
                                  ["Sludge Metal"]])) ++ delta
       /\ Forall noSkipLine delta.
Proof.
  split; [reflexivity|].
  exact (proj1 (verbose_off_prints_no_skip_line (env := scripted)
                  (newSync "Sludge") eq_refl)
           3%nat "Doom Metal" "2022"
           (start (onePage [release "Conan - Evidence (2)" 20 ["Sludge Metal"]]))).
Defined.
